(** * Multi-signal image similarity ranking (src/lib/db.ts, text engine)

    A shallow embedding of the similarity ranking engine of the image
    search application: the vector metrics, the colour and visual-property
    comparators, the OCR text similarity engine, the adaptive weight
    selector, the fusion of the six component scores, the distribution
    analyser, the threshold selector and the ranking orchestrator
    [searchImagesByEmbedding].

    JavaScript numbers are modelled as real numbers ([R]); comparisons are
    the decidable comparisons of the Standard Library ([Rlt_dec],
    [Rle_dec]).  Strings are Standard Library strings, JS arrays are lists,
    [Map]s with insertion order are association lists. *)

From Stdlib Require Import Reals Lra String Ascii List Bool Arith Lia ZArith Sorting Permutation.
Import ListNotations.
Open Scope R_scope.

(** ** Numeric helpers *)

(** [a < b] as a JavaScript boolean. *)
Definition Rltb (a b : R) : bool := if Rlt_dec a b then true else false.

Lemma Rltb_true (a b : R) : a < b -> Rltb a b = true.
Proof. intro H; unfold Rltb; destruct (Rlt_dec a b); [reflexivity | contradiction]. Qed.

Lemma Rltb_false (a b : R) : ~ a < b -> Rltb a b = false.
Proof. intro H; unfold Rltb; destruct (Rlt_dec a b); [contradiction | reflexivity]. Qed.

(** Truthiness of an optional number ([x && ...] in JavaScript): absent
    and [0] are falsy. *)
Definition truthyR (o : option R) : bool :=
  match o with
  | Some x => if Req_EM_T x 0 then false else true
  | None => false
  end.

(** Truthiness of a string: the empty string is falsy. *)
Definition truthyS (s : string) : bool :=
  match s with EmptyString => false | _ => true end.

(** [t] contains no real comparison. *)
Ltac no_dec t :=
  lazymatch t with
  | context [Rlt_dec _ _] => fail
  | context [Rle_dec _ _] => fail
  | context [Req_EM_T _ _] => fail
  | context [Rcase_abs _] => fail
  | _ => idtac
  end.

(** Case analysis on every real comparison left in the goal, innermost
    first; [lra] closes the contradictory branches. *)
Ltac rcases :=
  repeat (match goal with
          | |- context [Rlt_dec ?a ?b] => no_dec a; no_dec b; destruct (Rlt_dec a b)
          | |- context [Rle_dec ?a ?b] => no_dec a; no_dec b; destruct (Rle_dec a b)
          | |- context [Req_EM_T ?a ?b] => no_dec a; no_dec b; destruct (Req_EM_T a b)
          | |- context [Rcase_abs ?a] => no_dec a; destruct (Rcase_abs a)
          end; cbn beta iota zeta; try lra; try (exfalso; lra)); try lra.

(** Evaluation of a closed expression over the reals: everything but the
    real operations is computed, then the comparisons are decided. *)
Ltac rcompute :=
  cbv -[Rmin Rplus Rmult Rdiv Rminus INR Rlt_dec Rle_dec IZR Rmax Rinv Ropp Rabs sqrt];
  rewrite ?INR_IZR_INZ; cbn [Z.of_nat Pos.of_succ_nat Pos.succ];
  unfold Rmin, Rmax, Rabs; rcases.

(** ** Regular expressions as used by [parseRgb]

    The colour parser of [colorSimilarity] matches its input against the
    literal [/rgb$$(\d+),(\d+),(\d+)$$/].  Without the [m] flag, [$] is
    the end-of-input assertion, so the pattern is the sequence of atoms
    [r g b $ $ (\d+) , (\d+) , (\d+) $ $]. *)

Module Regex.

Inductive atom : Type :=
| ALit (c : ascii)   (* a literal character *)
| AEnd               (* [$]: end of input *)
| ADigits.           (* [(\d+)]: a capturing group of one or more digits *)

Definition is_digit (c : ascii) : bool :=
  (48 <=? nat_of_ascii c)%nat && (nat_of_ascii c <=? 57)%nat.

Fixpoint digit_prefix (s : list ascii) : list ascii :=
  match s with
  | c :: s' => if is_digit c then c :: digit_prefix s' else []
  | [] => []
  end.

(** Matching a pattern at the current position with backtracking: the
    greedy [\d+] first takes the longest run of digits and gives digits
    back one at a time.  The result lists the captured groups. *)
Fixpoint match_here (p : list atom) (s : list ascii)
  : option (list (list ascii)) :=
  match p with
  | [] => Some []
  | ALit c :: p' =>
      match s with
      | c' :: s' => if Ascii.eqb c c' then match_here p' s' else None
      | [] => None
      end
  | AEnd :: p' =>
      match s with
      | [] => match_here p' []
      | _ => None
      end
  | ADigits :: p' =>
      (fix try_len (k : nat) : option (list (list ascii)) :=
         match k with
         | O => None
         | S k' =>
             match match_here p' (skipn k s) with
             | Some caps => Some (firstn k s :: caps)
             | None => try_len k'
             end
         end) (length (digit_prefix s))
  end.

(** [String.prototype.match] with a non-global regex: the first position
    (from left to right, the end of input included) where the pattern
    matches. *)
Fixpoint search (p : list atom) (s : list ascii)
  : option (list (list ascii)) :=
  match match_here p s with
  | Some caps => Some caps
  | None =>
      match s with
      | [] => None
      | _ :: s' => search p s'
      end
  end.

Definition rgb_pattern : list atom :=
  [ALit "r"; ALit "g"; ALit "b"; AEnd; AEnd;
   ADigits; ALit ","; ADigits; ALit ","; ADigits; AEnd; AEnd].

End Regex.

(** [Number.parseInt] on a string of decimal digits. *)
Definition parseInt (ds : list ascii) : R :=
  INR (fold_left (fun acc d => acc * 10 + (nat_of_ascii d - 48))%nat ds 0%nat).

(** ** Colour similarity (db.ts, [colorSimilarity])

    The [rgbCache] of the source only memoises [parseRgb], which is a pure
    function; it is left out. *)

Definition parseRgb (rgb : string) : list R :=
  match Regex.search Regex.rgb_pattern (list_ascii_of_string rgb) with
  | Some [r; g; b] => [parseInt r; parseInt g; parseInt b]
  | _ => [0; 0; 0]
  end.

Definition colorDistance (color1 color2 : string) : R :=
  let rgb1 := parseRgb color1 in
  let rgb2 := parseRgb color2 in
  let rDiff := nth 0 rgb1 0 - nth 0 rgb2 0 in
  let gDiff := nth 1 rgb1 0 - nth 1 rgb2 0 in
  let bDiff := nth 2 rgb1 0 - nth 2 rgb2 0 in
  sqrt (rDiff * rDiff + gDiff * gDiff + bDiff * bDiff) / 441.67.

(** The colour lists are optional: [!colorsA] holds when the list is
    missing. *)
Definition colorSimilarity (colorsA colorsB : option (list string)) : R :=
  match colorsA, colorsB with
  | Some csA, Some csB =>
      if ((length csA =? 0)%nat || (length csB =? 0)%nat)%bool then 0.5
      else
        let topColorsA := firstn 3 csA in
        let topColorsB := firstn 3 csB in
        let totalSimilarity :=
          fold_left
            (fun total colorA =>
               let bestMatch :=
                 fold_left (fun best colorB => Rmin best (colorDistance colorA colorB))
                   topColorsB 1.0 in
               total + (1 - bestMatch))
            topColorsA 0 in
        totalSimilarity / INR (length topColorsA)
  | _, _ => 0.5
  end.

(** The colour strings built by [extractImageMetadata]:
    [rgb(R,G,B)] with each component a non-empty run of decimal digits. *)
Definition digits (d : string) : Prop :=
  d <> EmptyString /\ forallb Regex.is_digit (list_ascii_of_string d) = true.

Definition rgb_format (s : string) : Prop :=
  exists r g b, digits r /\ digits g /\ digits b /\
    s = ("rgb(" ++ r ++ "," ++ g ++ "," ++ b ++ ")")%string.

(** ** Data model (db.ts, [ImageRecord]; text-recognition results) *)

Record VisualMetadata : Type := mkVisualMetadata {
  dominantColors : option (list string);
  brightness : option R;
  contrast : option R;
  colorEntropy : option R;
  edgeDensity : option R
}.

Record OCRWord : Type := mkOCRWord {
  word_text : string;
  word_confidence : R
}.

Record TextContent : Type := mkTextContent {
  text : string;
  confidence : R;
  words : list OCRWord
}.

Record ImageRecord : Type := mkImageRecord {
  id : string;
  dataUrl : string;
  embedding : list R;
  timestamp : string;
  metadata : option VisualMetadata;
  textContent : option TextContent
}.

(** ** Vector metrics (db.ts)

    Each metric throws ["Vectors must have the same length"] on a length
    mismatch, modelled by [None].  The chunked loops of the source visit
    the indices in order, as the folds below do. *)

Definition sum_pairs (f : R -> R -> R) (a b : list R) : R :=
  fold_left (fun acc p => acc + f (fst p) (snd p)) (combine a b) 0.

Definition cosineSimilarity (a b : list R) : option R :=
  if negb (length a =? length b)%nat then None
  else
    let dotProduct := sum_pairs (fun x y => x * y) a b in
    let normA := sqrt (sum_pairs (fun x _ => x * x) a b) in
    let normB := sqrt (sum_pairs (fun _ y => y * y) a b) in
    Some (if (if Req_EM_T normA 0 then true else if Req_EM_T normB 0 then true else false)
          then 0
          else dotProduct / (normA * normB)).

Definition euclideanDistance (a b : list R) : option R :=
  if negb (length a =? length b)%nat then None
  else Some (sqrt (sum_pairs (fun x y => (x - y) * (x - y)) a b)).

Definition manhattanDistance (a b : list R) : option R :=
  if negb (length a =? length b)%nat then None
  else Some (sum_pairs (fun x y => Rabs (x - y)) a b).

(** ** Visual properties similarity (db.ts, [visualPropertiesSimilarity])

    [propsA.brightness && propsB.brightness ? 1 - |a - b| : 0.5]: a missing
    value and the value [0] both give the neutral [0.5]. *)
Definition propertySimilarity (oa ob : option R) : R :=
  match oa, ob with
  | Some a, Some b =>
      if (truthyR (Some a) && truthyR (Some b))%bool then 1 - Rabs (a - b) else 0.5
  | _, _ => 0.5
  end.

Definition visualPropertiesSimilarity (propsA propsB : option VisualMetadata) : R :=
  match propsA, propsB with
  | Some pA, Some pB =>
      propertySimilarity (brightness pA) (brightness pB) * 0.3
      + propertySimilarity (contrast pA) (contrast pB) * 0.2
      + propertySimilarity (colorEntropy pA) (colorEntropy pB) * 0.25
      + propertySimilarity (edgeDensity pA) (edgeDensity pB) * 0.25
  | _, _ => 0.5
  end.

(** ** Text similarity engine (text recognition module,
    [calculateTextSimilarity] and its helpers) *)

Module Text.

(** [Map<string, {confidence, count}>] in insertion order. *)
Definition WordMap := list (string * (R * nat)).

Fixpoint wm_get (m : WordMap) (w : string) : option (R * nat) :=
  match m with
  | [] => None
  | (k, v) :: m' => if String.eqb k w then Some v else wm_get m' w
  end.

Definition wm_has (m : WordMap) (w : string) : bool :=
  match wm_get m w with Some _ => true | None => false end.

Fixpoint wm_update (m : WordMap) (w : string) (v : R * nat) : WordMap :=
  match m with
  | [] => []
  | (k, v') :: m' => if String.eqb k w then (k, v) :: m' else (k, v') :: wm_update m' w v
  end.

(** One iteration of the loop building [wordsMapA] / [wordsMapB]. *)
Definition addWord (m : WordMap) (wordObj : OCRWord) : WordMap :=
  let word := word_text wordObj in
  if (String.length word <? 2)%nat then m
  else
    match wm_get m word with
    | Some (conf, count) =>
        wm_update m word (Rmax conf (word_confidence wordObj), S count)
    | None => m ++ [(word, (word_confidence wordObj, 1%nat))]
    end.

Definition buildWordMap (ws : list OCRWord) : WordMap := fold_left addWord ws [].

Definition stopWords : list string :=
  ["the"; "and"; "a"; "an"; "in"; "on"; "at"; "to"; "for"; "of"; "with";
   "by"; "as"; "is"; "are"; "was"; "were"; "be"; "been"; "being"; "have";
   "has"; "had"; "do"; "does"; "did"; "but"; "or"; "if"; "then"; "else";
   "when"; "up"; "down"; "out"; "in"; "that"; "this"; "these"; "those"]%string.

(** The character class of [hasSpecial] in [calculateWordImportance],
    written with character codes (it contains a double quote); the [)-_]
    inside it is the range from [)] (41) to [_] (95). *)
Definition isSpecialChar (c : ascii) : bool :=
  let n := nat_of_ascii c in
  ((41 <=? n)%nat && (n <=? 95)%nat)
  || existsb (Nat.eqb n)
       [46; 44; 59; 58; 33; 63; 64; 35; 36; 37; 38; 42; 40; 43; 61; 91; 93;
        123; 125; 124; 60; 62; 47; 92; 39; 34; 96; 32]%nat.

Definition calculateWordImportance (word : string) : R :=
  let lengthImportance := Rmin 1 (INR (String.length word) / 5) in
  let contentImportance := if existsb (String.eqb word) stopWords then 0.3 else 1.0 in
  let cs := list_ascii_of_string word in
  let hasNumbers := existsb Regex.is_digit cs in
  let hasSpecial := existsb isSpecialChar cs in
  let specialImportance := if (hasNumbers || hasSpecial)%bool then 1.2 else 1.0 in
  lengthImportance * contentImportance * specialImportance.

(** [\s] restricted to ASCII: tab, line feed, vertical tab, form feed,
    carriage return and space. *)
Definition is_ws (c : ascii) : bool :=
  existsb (Nat.eqb (nat_of_ascii c)) [9; 10; 11; 12; 13; 32]%nat.

(** [replace(/\s+/g, " ")]: every run of white space becomes one space. *)
Fixpoint collapseWs (s : list ascii) (in_ws : bool) : list ascii :=
  match s with
  | [] => []
  | c :: s' =>
      if is_ws c then (if in_ws then collapseWs s' true else " "%char :: collapseWs s' true)
      else c :: collapseWs s' false
  end.

Fixpoint dropWs (s : list ascii) : list ascii :=
  match s with
  | c :: s' => if is_ws c then dropWs s' else s
  | [] => []
  end.

(** [trim()] *)
Definition trim (s : list ascii) : list ascii := rev (dropWs (rev (dropWs s))).

(** [split(" ")] *)
Fixpoint splitSpace (s : list ascii) (cur : list ascii) : list string :=
  match s with
  | [] => [string_of_list_ascii (rev cur)]
  | c :: s' =>
      if Ascii.eqb c " "%char then string_of_list_ascii (rev cur) :: splitSpace s' []
      else splitSpace s' (c :: cur)
  end.

Definition splitWords (t : string) : list string :=
  splitSpace (trim (collapseWs (list_ascii_of_string t) false)) [].

(** [slice(i, i + n).join(" ")] *)
Definition phraseAt (ws : list string) (i n : nat) : string :=
  String.concat " " (firstn n (skipn i ws)).

Definition phrasesOf (ws : list string) (n : nat) : list string :=
  map (fun i => phraseAt ws i n) (seq 0 (length ws - n + 1)).

(** State of the phrase loop: [totalPhraseMatches], [maxPhraseLength],
    [weightedPhraseScore]. *)
Definition phraseStep (wordsA wordsB : list string)
    (st : nat * nat * R) (phraseLength : nat) : nat * nat * R :=
  let phrasesA := phrasesOf wordsA phraseLength in
  fold_left
    (fun st phrase =>
       let '(total, maxLen, weighted) := st in
       if existsb (String.eqb phrase) phrasesA
       then (S total, Nat.max maxLen phraseLength, weighted + INR phraseLength * 0.1)
       else st)
    (phrasesOf wordsB phraseLength) st.

Definition calculatePhraseMatches (textA textB : string) : R :=
  if negb (truthyS textA && truthyS textB) then 0
  else
    let wordsA := splitWords textA in
    let wordsB := splitWords textB in
    if ((length wordsA <? 2)%nat || (length wordsB <? 2)%nat)%bool then 0
    else
      let bound := Nat.min 6 (Nat.min (length wordsA) (length wordsB)) in
      let '(total, maxLen, weighted) :=
        fold_left (phraseStep wordsA wordsB) (seq 2 (bound - 1)) (0%nat, 0%nat, 0) in
      let phraseMatchScore :=
        if (0 <? total)%nat then weighted + INR maxLen * 0.1 else 0 in
      Rmin 1 phraseMatchScore.

(** [levenshteinDistance], row by row: [next_row] computes row [i] of the
    matrix from row [i - 1]. *)
Fixpoint next_row (ca : ascii) (bs : list ascii) (diag : nat) (up_row : list nat)
    (left : nat) : list nat :=
  match bs, up_row with
  | cb :: bs', up :: up_row' =>
      let cost := if Ascii.eqb ca cb then 0%nat else 1%nat in
      let v := Nat.min (Nat.min (up + 1) (left + 1)) (diag + cost) in
      v :: next_row ca bs' up up_row' v
  | _, _ => []
  end.

Fixpoint lev_rows (as_ bs : list ascii) (row : list nat) (i : nat) : list nat :=
  match as_ with
  | [] => row
  | ca :: as' =>
      let i' := S i in
      lev_rows as' bs (i' :: next_row ca bs (hd 0%nat row) (tl row) i') i'
  end.

Definition levenshteinDistance (a b : string) : nat :=
  let bs := list_ascii_of_string b in
  last (lev_rows (list_ascii_of_string a) bs (seq 0 (length bs + 1)) 0) 0%nat.

(** [calculateFuzzyMatches], with the [processedPairs] set of
    ["wordA:wordB"] keys. *)
Definition fuzzyInner (wordA : string) (infoA : R * nat)
    (st : R * list string) (entryB : string * (R * nat)) : R * list string :=
  let '(score, processed) := st in
  let '(wordB, infoB) := entryB in
  if (String.length wordB <? 4)%nat then st
  else if String.eqb wordA wordB then st
  else
    let pairKey := (wordA ++ ":" ++ wordB)%string in
    if existsb (String.eqb pairKey) processed then st
    else
      let processed' := processed ++ [pairKey] in
      let distance := levenshteinDistance wordA wordB in
      let maxLength := Nat.max (String.length wordA) (String.length wordB) in
      let similarity := 1 - INR distance / INR maxLength in
      if Rltb 0.75 similarity then
        (score + similarity * fst infoA * fst infoB * calculateWordImportance wordA,
         processed')
      else (score, processed').

Definition calculateFuzzyMatches (mapA mapB : WordMap) : R :=
  let '(score, _) :=
    fold_left
      (fun st entryA =>
         let '(wordA, infoA) := entryA in
         if (String.length wordA <? 4)%nat then st
         else fold_left (fuzzyInner wordA infoA) mapB st)
      mapA (0, []) in
  Rmin 1 (score / Rmax 1 (INR (length mapA))).

Definition weightedIntersection (mapA mapB : WordMap) : R :=
  fold_left
    (fun acc entryA =>
       let '(word, infoA) := entryA in
       match wm_get mapB word with
       | Some infoB =>
           acc + fst infoA * fst infoB * INR (Nat.min (snd infoA) (snd infoB))
                 * calculateWordImportance word
       | None => acc
       end)
    mapA 0.

Definition weightedUnion (mapA mapB : WordMap) : R :=
  let ua := fold_left
              (fun acc entryA =>
                 let '(word, infoA) := entryA in
                 acc + fst infoA * INR (snd infoA) * calculateWordImportance word)
              mapA 0 in
  fold_left
    (fun acc entryB =>
       let '(word, infoB) := entryB in
       if wm_has mapA word then acc
       else acc + fst infoB * INR (snd infoB) * calculateWordImportance word)
    mapB ua.

Definition weightedJaccard (mapA mapB : WordMap) : R :=
  let unionWeight := weightedUnion mapA mapB in
  if Rltb 0 unionWeight then weightedIntersection mapA mapB / unionWeight else 0.

Definition calculateTextSimilarity (textA textB : TextContent) : R :=
  if negb (truthyS (text textA) && truthyS (text textB)
           && negb (length (words textA) =? 0)%nat
           && negb (length (words textB) =? 0)%nat)
  then 0
  else
    let wordsMapA := buildWordMap (words textA) in
    let wordsMapB := buildWordMap (words textB) in
    let weightedJaccardSim := weightedJaccard wordsMapA wordsMapB in
    let phraseBonus := calculatePhraseMatches (text textA) (text textB) in
    let fuzzyMatchScore := calculateFuzzyMatches wordsMapA wordsMapB in
    weightedJaccardSim * 0.5 + phraseBonus * 0.3 + fuzzyMatchScore * 0.2.

End Text.

(** ** Characteristic classifier (db.ts, [analyzeImageCharacteristics]) *)

Record Characteristics : Type := mkCharacteristics {
  isTextHeavy : bool;
  isColorful : bool;
  isHighContrast : bool;
  isDetailed : bool
}.

(** [m?.f ? m.f > bound : false] *)
Definition flagAbove (o : option R) (bound : R) : bool :=
  match o with
  | Some x => if truthyR (Some x) then Rltb bound x else false
  | None => false
  end.

Definition metadataField (f : VisualMetadata -> option R) (m : option VisualMetadata)
  : option R :=
  match m with Some md => f md | None => None end.

Definition analyzeImageCharacteristics (image : ImageRecord) (queryMetadata : VisualMetadata)
  : Characteristics :=
  let textHeavy :=
    match textContent image with
    | Some tc =>
        (truthyS (text tc) && (5 <? length (words tc))%nat && Rltb 0.6 (confidence tc))%bool
    | None => false
    end in
  mkCharacteristics
    textHeavy
    (flagAbove (metadataField colorEntropy (metadata image)) 0.7)
    (flagAbove (metadataField contrast (metadata image)) 0.6)
    (flagAbove (metadataField edgeDensity (metadata image)) 0.5).

(** ** Adaptive weight selector (db.ts, [getAdaptiveWeights]) *)

Record Weights : Type := mkWeights {
  w_cosine : R;
  w_euclidean : R;
  w_manhattan : R;
  w_color : R;
  w_visualProps : R;
  w_text : R
}.

Definition baseWeights : Weights := mkWeights 0.3 0.25 0.15 0.2 0.05 0.05.

(** [Object.values(weights).reduce((sum, w) => sum + w, 0)] *)
Definition totalWeight (w : Weights) : R :=
  0 + w_cosine w + w_euclidean w + w_manhattan w + w_color w + w_visualProps w + w_text w.

(** The steps of [getAdaptiveWeights], each updating the [weights] object
    in place in the source. *)
Definition adjustForText (characteristics : Characteristics) (hasSignificantText : bool)
    (textSim : R) (w : Weights) : Weights :=
  if (isTextHeavy characteristics || hasSignificantText)%bool then
    let textWeight := 0.2 + textSim * 0.3 in
    mkWeights (0.25 - textWeight * 0.1) (0.2 - textWeight * 0.05) 0.1 0.15 0.05 textWeight
  else w.

Definition adjustForColorful (characteristics : Characteristics) (w : Weights) : Weights :=
  if isColorful characteristics then
    mkWeights (w_cosine w - 0.05) (w_euclidean w) (w_manhattan w)
      (Rmin 0.3 (w_color w * 1.5)) (w_visualProps w) (w_text w)
  else w.

Definition adjustForDetailed (characteristics : Characteristics) (w : Weights) : Weights :=
  if isDetailed characteristics then
    mkWeights (Rmin 0.35 (w_cosine w * 1.2)) (Rmin 0.3 (w_euclidean w * 1.2))
      (w_manhattan w) (w_color w - 0.05) (w_visualProps w) (w_text w)
  else w.

Definition adjustForCosine (cosSim : R) (w : Weights) : Weights :=
  if Rltb 0.8 cosSim then
    mkWeights (Rmin 0.4 (w_cosine w * 1.2)) (w_euclidean w) (w_manhattan w)
      (w_color w) (w_visualProps w) (w_text w)
  else w.

Definition adjustForColor (colorSim : R) (w : Weights) : Weights :=
  if Rltb 0.8 colorSim then
    mkWeights (w_cosine w) (w_euclidean w) (w_manhattan w)
      (Rmin 0.3 (w_color w * 1.2)) (w_visualProps w) (w_text w)
  else w.

(** The weights before the final normalisation. *)
Definition rawAdaptiveWeights (characteristics : Characteristics)
    (hasSignificantText : bool) (textSim cosSim euclideanSim colorSim : R) : Weights :=
  adjustForColor colorSim
    (adjustForCosine cosSim
       (adjustForDetailed characteristics
          (adjustForColorful characteristics
             (adjustForText characteristics hasSignificantText textSim baseWeights)))).

Definition getAdaptiveWeights (characteristics : Characteristics)
    (hasSignificantText : bool) (textSim cosSim euclideanSim colorSim : R) : Weights :=
  let weights := rawAdaptiveWeights characteristics hasSignificantText
                   textSim cosSim euclideanSim colorSim in
  let total := totalWeight weights in
  mkWeights (w_cosine weights / total) (w_euclidean weights / total)
    (w_manhattan weights / total) (w_color weights / total)
    (w_visualProps weights / total) (w_text weights / total).

(** Sum of the six returned weights, in the order of the record. *)
Definition weightSum (w : Weights) : R :=
  w_cosine w + w_euclidean w + w_manhattan w + w_color w + w_visualProps w + w_text w.

(** ** Similarity fusion (db.ts, [calculateSimilarities]) *)

Record Metrics : Type := mkMetrics {
  m_cosine : R;
  m_euclidean : R;
  m_manhattan : R;
  m_color : R;
  m_visualProps : R;
  m_text : R
}.

(** A scored record: [{...image, similarity, metrics, hasSignificantText,
    characteristics}]. *)
Record Scored : Type := mkScored {
  image : ImageRecord;
  similarity : R;
  metrics : Metrics;
  s_hasSignificantText : bool;
  characteristics : Characteristics
}.

(** The colour component: [image.metadata?.dominantColors ?
    colorSimilarity(query colours, image colours) : 0.5] (an empty array
    is truthy). *)
Definition colorComponent (queryMetadata : VisualMetadata) (image : ImageRecord) : R :=
  match metadata image with
  | Some m =>
      match dominantColors m with
      | Some cs => colorSimilarity (dominantColors queryMetadata) (Some cs)
      | None => 0.5
      end
  | None => 0.5
  end.

Definition textComponent (query : option TextContent) (image : ImageRecord) : R :=
  match query, textContent image with
  | Some q, Some t =>
      if (truthyS (text q) && truthyS (text t))%bool then Text.calculateTextSimilarity q t else 0
  | _, _ => 0
  end.

Definition significantText (query : option TextContent) (image : ImageRecord) (textSim : R)
  : bool :=
  match query, textContent image with
  | Some q, Some t => ((3 <? length (words q))%nat && (3 <? length (words t))%nat
                      && Rltb 0.2 textSim)%bool
  | _, _ => false
  end.

(** Scoring one record; [None] when a vector metric throws. *)
Definition scoreImage (embedding0 : list R) (queryMetadata : VisualMetadata)
    (query : option TextContent) (image0 : ImageRecord) : option Scored :=
  match cosineSimilarity embedding0 (embedding image0),
        euclideanDistance embedding0 (embedding image0),
        manhattanDistance embedding0 (embedding image0) with
  | Some cosSim, Some euclideanDist, Some manhattanDist =>
      let maxPossibleDist := sqrt 2 in
      let euclideanSim := 1 - euclideanDist / maxPossibleDist in
      let manhattanSim := 1 - manhattanDist / (2 * INR (length embedding0)) in
      let colorSim := colorComponent queryMetadata image0 in
      let visualPropsSim := visualPropertiesSimilarity (Some queryMetadata) (metadata image0) in
      let textSim := textComponent query image0 in
      let hasSignificantText := significantText query image0 textSim in
      let imageCharacteristics := analyzeImageCharacteristics image0 queryMetadata in
      let weights := getAdaptiveWeights imageCharacteristics hasSignificantText
                       textSim cosSim euclideanSim colorSim in
      let p1 := if (Rltb cosSim 0.4 && Rltb euclideanSim 0.4)%bool then 1.0 * 0.8 else 1.0 in
      let p2 := if Rltb colorSim 0.3 then p1 * 0.9 else p1 in
      let penaltyFactor := if (hasSignificantText && Rltb textSim 0.2)%bool then p2 * 0.85 else p2 in
      let combinedSim :=
        (cosSim * w_cosine weights + euclideanSim * w_euclidean weights
         + manhattanSim * w_manhattan weights + colorSim * w_color weights
         + visualPropsSim * w_visualProps weights + textSim * w_text weights)
        * penaltyFactor in
      Some (mkScored image0 combinedSim
              (mkMetrics cosSim euclideanSim manhattanSim colorSim visualPropsSim textSim)
              hasSignificantText imageCharacteristics)
  | _, _, _ => None
  end.

(** The batches of 20 only yield to the event loop; they do not change the
    result.  An exception thrown while scoring happens inside a [setTimeout]
    callback, so the search never resolves: [None]. *)
Fixpoint calculateSimilarities (images : list ImageRecord) (embedding0 : list R)
    (queryMetadata : VisualMetadata) (query : option TextContent) : option (list Scored) :=
  match images with
  | [] => Some []
  | img :: rest =>
      match scoreImage embedding0 queryMetadata query img,
            calculateSimilarities rest embedding0 queryMetadata query with
      | Some s, Some ss => Some (s :: ss)
      | _, _ => None
      end
  end.

(** ** Sorting: [sort((a, b) => key(b) - key(a))]

    A stable insertion sort in descending order of the key; the ECMAScript
    sort is stable. *)

Fixpoint insertDesc {A : Type} (key : A -> R) (x : A) (l : list A) : list A :=
  match l with
  | [] => [x]
  | y :: l' => if Rltb (key y) (key x) then x :: y :: l' else y :: insertDesc key x l'
  end.

Definition sortDesc {A : Type} (key : A -> R) (l : list A) : list A :=
  fold_left (fun acc x => insertDesc key x acc) l [].

(** ** Distribution analyser (db.ts, [analyzeDistribution]) *)

Record Stats : Type := mkStats {
  mean : R;
  stdDev : R;
  median : R;
  quartiles : list R;
  gaps : list R
}.

Fixpoint consecutiveGaps (l : list R) : list R :=
  match l with
  | x :: ((y :: _) as l') => (x - y) :: consecutiveGaps l'
  | _ => []
  end.

Definition sumR (l : list R) : R := fold_left Rplus l 0.

Definition analyzeDistribution (scores : list R) : Stats :=
  match scores with
  | [] => mkStats 0 0 0 [0; 0; 0] []
  | _ =>
      let n := length scores in
      let mean0 := sumR scores / INR n in
      let variance := fold_left (fun acc s => acc + (s - mean0) ^ 2) scores 0 / INR n in
      let sortedScores := sortDesc (fun x => x) scores in
      let median0 := nth (n / 2) sortedScores 0 in
      let q1 := nth (n / 4) sortedScores 0 in
      let q3 := nth (3 * n / 4) sortedScores 0 in
      let gaps0 := sortDesc (fun x => x) (consecutiveGaps sortedScores) in
      mkStats mean0 (sqrt variance) median0 [q1; median0; q3] (firstn 3 gaps0)
  end.

(** ** Threshold selector (db.ts, [determineOptimalThreshold], [findGapIndex]) *)

Fixpoint findGapIndexFrom (scores : list R) (targetGap : R) (i : Z) : Z :=
  match scores with
  | x :: ((y :: _) as rest) =>
      if Rltb (Rabs (x - y - targetGap)) 0.001 then i
      else findGapIndexFrom rest targetGap (i + 1)
  | _ => (-1)%Z
  end.

Definition findGapIndex (scores : list R) (targetGap : R) : Z :=
  findGapIndexFrom scores targetGap 0.

(** [results[k].similarity] *)
Definition simAt (results : list Scored) (k : nat) : R :=
  nth k (map similarity results) 0.

Definition determineOptimalThreshold (results : list Scored) (stats : Stats) : R :=
  let threshold0 := 0.45 in
  let threshold :=
    if (3 <=? length results)%nat then
      let t1 :=
        if ((0 <? length (gaps stats))%nat && Rltb 0.1 (nth 0 (gaps stats) 0))%bool then
          let gapIndex := findGapIndex (map similarity results) (nth 0 (gaps stats) 0) in
          if ((0 <? gapIndex)%Z && (gapIndex <? Z.of_nat (length results) - 1)%Z)%bool then
            let gapMidpoint :=
              (simAt results (Z.to_nat gapIndex) + simAt results (S (Z.to_nat gapIndex))) / 2 in
            Rmax threshold0 gapMidpoint
          else threshold0
        else threshold0 in
      let t2 :=
        if Rltb 0.2 (nth 0 (quartiles stats) 0 - nth 2 (quartiles stats) 0)
        then Rmax t1 (nth 2 (quartiles stats) 0) else t1 in
      let t3 :=
        if (Rltb 0.8 (simAt results 0) && (1 <? length results)%nat
            && Rltb 0.2 (simAt results 0 - simAt results 1))%bool
        then Rmax t2 (simAt results 0 * 0.8) else t2 in
      let hasTextMatches := existsb (fun r => Rltb 0.5 (m_text (metrics r))) results in
      if hasTextMatches then Rmax 0.4 (t3 * 0.9) else t3
    else threshold0 in
  Rmin (Rmax 0.4 threshold) 0.85.

(** ** Ranking orchestrator (db.ts, [searchImagesByEmbedding])

    Sorting, distribution analysis and threshold of a scored batch. *)
Definition rankResults (results : list Scored) : list Scored * R :=
  let sorted := sortDesc similarity results in
  let similarityStats := analyzeDistribution (map similarity sorted) in
  (sorted, determineOptimalThreshold sorted similarityStats).

Section Orchestrator.

(** [extractImageMetadata] samples the pixels of a data URL through a
    browser canvas; the search only depends on it as a function from data
    URLs to metadata. *)
Variable extractImageMetadata : string -> VisualMetadata.

(** The metadata the search passes to [calculateSimilarities] as the
    query's: [extractImageMetadata(images[0].dataUrl)]. *)
Definition queryMetadataOf (images : list ImageRecord) : option VisualMetadata :=
  match images with
  | [] => None
  | img0 :: _ => Some (extractImageMetadata (dataUrl img0))
  end.

(** The scored batch, sorted, with the threshold computed for the call. *)
Definition searchRanking (images : list ImageRecord) (embedding0 : list R)
    (query : option TextContent) : option (list Scored * R) :=
  match queryMetadataOf images with
  | None => None
  | Some queryMetadata =>
      match calculateSimilarities images embedding0 queryMetadata query with
      | Some results => Some (rankResults results)
      | None => None
      end
  end.

(** [images] is the content of the store returned by [getAll()]; the
    result is the resolved value of the promise, [None] when it never
    resolves. *)
Definition searchImagesByEmbedding (images : list ImageRecord) (embedding0 : list R)
    (query : option TextContent) : option (list Scored) :=
  match images with
  | [] => Some []
  | _ =>
      match searchRanking images embedding0 query with
      | Some (sorted, threshold) =>
          let filteredResults := filter (fun img => Rltb threshold (similarity img)) sorted in
          Some (firstn 15 filteredResults)
      | None => None
      end
  end.

End Orchestrator.

(** ** Vector normalisation (embedding.ts, [normalizeVector]) *)

(** [Math.sqrt(vector.reduce((sum, val) => sum + val * val, 0))] *)
Definition magnitude (vector : list R) : R :=
  sqrt (fold_left (fun sum val => sum + val * val) vector 0).

(** [vector.map((val) => val / magnitude)]: for a non-empty vector of
    magnitude [0] every entry is [0 / 0], [NaN]; that result is [None].
    The empty vector maps to the empty vector. *)
Definition normalizeVector (vector : list R) : option (list R) :=
  let m := magnitude vector in
  match vector with
  | [] => Some []
  | _ => if Req_EM_T m 0 then None else Some (map (fun val => val / m) vector)
  end.

(** The sum of squares under the square root of [magnitude]. *)
Definition sumSquares (v : list R) : R := fold_left (fun sum val => sum + val * val) v 0.

(** [x] comes before [y] in descending order of [key]. *)
Definition descBy {A : Type} (key : A -> R) (x y : A) : Prop := key y <= key x.

(** Confidence of a word-map entry in [[0,1]]. *)
Definition confInUnit (e : string * (R * nat)) : Prop := 0 <= fst (snd e) <= 1.

(** ** Pixel analysis (db.ts, [extractImageMetadata], [calculateColorEntropy],
    [calculateEdgeDensity]) *)

(** [for (let i = start; i < bound; i += step)]: the indices the loop
    visits.  With [step >= 1] the loop runs at most [bound] times, so
    [bound] is enough fuel. *)
Fixpoint stepsFrom (fuel start step bound : nat) : list nat :=
  match fuel with
  | O => []
  | S fuel' =>
      if (start <? bound)%nat then start :: stepsFrom fuel' (start + step) step bound
      else []
  end.

Definition forRange (start step bound : nat) : list nat :=
  stepsFrom bound start step bound.

(** [ImageData]: the bytes of [data] are red, green, blue and alpha of
    each pixel, row by row.  An index outside [data] reads [undefined];
    the reads of both functions below stay inside [data] when it has
    [4 * width * height] bytes, and [nth]'s default is then never used. *)
Record ImageData : Type := mkImageData {
  width : nat;
  height : nat;
  data : list Z
}.

Definition byteAt (d : list Z) (i : nat) : R := IZR (nth i d 0%Z).

(** [Math.log2] *)
Definition log2 (x : R) : R := ln x / ln 2.

(** [Map<string, number>] in insertion order. *)
Definition ColorMap := list (string * R).

Fixpoint cm_get (m : ColorMap) (k : string) : option R :=
  match m with
  | [] => None
  | (k', v) :: m' => if String.eqb k' k then Some v else cm_get m' k
  end.

(** [Map.prototype.set]: an existing key keeps its place, a new key is
    appended. *)
Fixpoint cm_set (m : ColorMap) (k : string) (v : R) : ColorMap :=
  match m with
  | [] => [(k, v)]
  | (k', v') :: m' => if String.eqb k' k then (k', v) :: m' else (k', v') :: cm_set m' k v
  end.

Definition calculateColorEntropy (colorMap : ColorMap) : R :=
  let totalPixels := fold_left (fun sum count => sum + count) (map snd colorMap) 0 in
  let entropy :=
    fold_left (fun entropy count =>
                 let probability := count / totalPixels in
                 entropy - probability * log2 probability)
      (map snd colorMap) 0 in
  Rmin 1 (entropy / 5).

(** One iteration of the inner loop: is the pixel at [(x, y)] an edge? *)
Definition isEdge (imageData : ImageData) (y x : nat) : bool :=
  let w := width imageData in
  let d := data imageData in
  let idx := ((y * w + x) * 4)%nat in
  let rDiffH := Rabs (byteAt d idx - byteAt d (idx + 4)) in
  let gDiffH := Rabs (byteAt d (idx + 1) - byteAt d (idx + 5)) in
  let bDiffH := Rabs (byteAt d (idx + 2) - byteAt d (idx + 6)) in
  let rDiffV := Rabs (byteAt d idx - byteAt d (idx + w * 4)) in
  let gDiffV := Rabs (byteAt d (idx + 1) - byteAt d (idx + w * 4 + 1)) in
  let bDiffV := Rabs (byteAt d (idx + 2) - byteAt d (idx + w * 4 + 2)) in
  let gradientH := (rDiffH + gDiffH + bDiffH) / 3 in
  let gradientV := (rDiffV + gDiffV + bDiffV) / 3 in
  (Rltb 30 gradientH || Rltb 30 gradientV)%bool.

(** [width - 1] and [height - 1] are negative only for an empty image,
    where the loops do not run, as with truncated subtraction.  The result
    [edgeCount / pixelsChecked] is not a finite number when
    [pixelsChecked] is [0]; that case is [None]. *)
Definition calculateEdgeDensity (imageData : ImageData) : option R :=
  let edgeCount :=
    fold_left
      (fun edgeCount y =>
         fold_left (fun edgeCount x => if isEdge imageData y x then S edgeCount else edgeCount)
           (forRange 1 2 (width imageData - 1)) edgeCount)
      (forRange 1 2 (height imageData - 1)) 0%nat in
  let pixelsChecked :=
    ((Z.of_nat (width imageData) - 2) / 2 * ((Z.of_nat (height imageData) - 2) / 2))%Z in
  if (pixelsChecked =? 0)%Z then None else Some (INR edgeCount / IZR pixelsChecked).

(** [Math.round(v / 40) * 40] on a byte (rounding half up). *)
Definition quantize (v : Z) : Z := ((v + 20) / 40 * 40)%Z.

(** Decimal representation of a natural number. *)
Fixpoint natDigits (fuel n : nat) : string :=
  match fuel with
  | O => EmptyString
  | S fuel' =>
      ((if (n <? 10)%nat then EmptyString else natDigits fuel' (n / 10))
       ++ String (ascii_of_nat (48 + n mod 10)) EmptyString)%string
  end.

(** [`${z}`] for an integer. *)
Definition zToString (z : Z) : string :=
  if (z <? 0)%Z then ("-" ++ natDigits (S (Z.to_nat (- z))) (Z.to_nat (- z)))%string
  else natDigits (S (Z.to_nat z)) (Z.to_nat z).

Record PixelAcc : Type := mkPixelAcc {
  colorMap : ColorMap;
  totalBrightness : R;
  totalContrast : R
}.

(** One iteration of the sampling loop at byte index [i]. *)
Definition samplePixel (pixels : list Z) (acc : PixelAcc) (i : nat) : PixelAcc :=
  let r := nth i pixels 0%Z in
  let g := nth (i + 1) pixels 0%Z in
  let b := nth (i + 2) pixels 0%Z in
  let colorKey := (zToString (quantize r) ++ "," ++ zToString (quantize g) ++ ","
                   ++ zToString (quantize b))%string in
  let count := match cm_get (colorMap acc) colorKey with Some c => c | None => 0 end in
  let brightness := (IZR r + IZR g + IZR b) / 3 in
  mkPixelAcc (cm_set (colorMap acc) colorKey (count + 1))
    (totalBrightness acc + brightness)
    (totalContrast acc + Rabs (brightness - 128)).

(** The [onload] handler of [extractImageMetadata] (the second one, which
    replaces the first) once the image is drawn on the 40 x 40 canvas and
    [pixels] read back; its failure paths ([onerror], no 2d context, the
    3 s timeout) resolve to [{}], which is [emptyMetadata].  On the
    40 x 40 canvas the edge density is always a finite number. *)
Definition size : nat := 40.

Definition metadataOfPixels (pixels : list Z) : VisualMetadata :=
  let acc := fold_left (samplePixel pixels) (forRange 0 16 (length pixels))
               (mkPixelAcc [] 0 0) in
  let sortedColors :=
    map (fun e => ("rgb(" ++ fst e ++ ")")%string) (firstn 5 (sortDesc snd (colorMap acc))) in
  let pixelCount := INR (length pixels) / 16 in
  let avgBrightness := totalBrightness acc / pixelCount in
  let avgContrast := totalContrast acc / pixelCount in
  let colorEntropy := calculateColorEntropy (colorMap acc) in
  let edgeDensity := calculateEdgeDensity (mkImageData size size pixels) in
  mkVisualMetadata (Some sortedColors) (Some (avgBrightness / 255))
    (Some (avgContrast / 128)) (Some colorEntropy) edgeDensity.

Definition emptyMetadata : VisualMetadata := mkVisualMetadata None None None None None.

Definition extractImageMetadata (canvasPixels : option (list Z)) : VisualMetadata :=
  match canvasPixels with
  | Some pixels => metadataOfPixels pixels
  | None => emptyMetadata
  end.

(** ** Text extraction and its cache (text recognition module,
    [extractTextFromImage], [normalizeText]) *)

Module OCR.

(** [toLowerCase] on ASCII text. *)
Definition lowerAscii (c : ascii) : ascii :=
  let n := nat_of_ascii c in
  if ((65 <=? n)%nat && (n <=? 90)%nat)%bool then ascii_of_nat (n + 32) else c.

(** [\w]: letters, digits and [_]. *)
Definition isWordChar (c : ascii) : bool :=
  let n := nat_of_ascii c in
  (Regex.is_digit c || ((65 <=? n)%nat && (n <=? 90)%nat)
   || ((97 <=? n)%nat && (n <=? 122)%nat) || (n =? 95)%nat)%bool.

(** The characters kept by [replace(/[^\w\s...]/g, "")]; the listed
    characters after [\w\s] are those of [hasSpecial]. *)
Definition keepChar (c : ascii) : bool :=
  (isWordChar c || Text.is_ws c || Text.isSpecialChar c)%bool.

(** [replace(/[c1]c2/g, c2)]: a left-to-right scan replacing each
    non-overlapping occurrence of [c1 c2]; the scan resumes after the
    match. *)
Fixpoint replacePair (c1 c2 : ascii) (s : list ascii) : list ascii :=
  match s with
  | [] => []
  | a :: t =>
      match t with
      | [] => [a]
      | b :: t' =>
          if (Ascii.eqb a c1 && Ascii.eqb b c2)%bool then c2 :: replacePair c1 c2 t'
          else a :: replacePair c1 c2 t
      end
  end.

Definition normalizeText (text : string) : string :=
  if negb (truthyS text) then EmptyString
  else
    let s := map lowerAscii (list_ascii_of_string text) in
    let s := Text.trim s in
    let s := Text.collapseWs s false in
    let s := filter keepChar s in
    let s := replacePair "|" "l" s in
    let s := replacePair "0" "o" s in
    let s := replacePair "1" "l" s in
    let s := replacePair "5" "s" s in
    let s := replacePair "8" "b" s in
    string_of_list_ascii s.

(** [result.data] of the recognition engine. *)
Record OCRData : Type := mkOCRData {
  ocrText : string;
  ocrConfidence : R;
  ocrWords : list OCRWord;
  ocrLanguage : string
}.

(** The value returned by [extractTextFromImage]; [language] is optional. *)
Record TextResult : Type := mkTextResult {
  resText : string;
  resConfidence : R;
  resWords : list OCRWord;
  resLanguage : option string
}.

Record CacheEntry : Type := mkCacheEntry {
  entryResult : TextResult;
  entryTimestamp : R
}.

(** [textExtractionCache]: a [Map] in insertion order. *)
Definition Cache := list (string * CacheEntry).

Fixpoint cacheGet (c : Cache) (k : string) : option CacheEntry :=
  match c with
  | [] => None
  | (k', v) :: c' => if String.eqb k' k then Some v else cacheGet c' k
  end.

Fixpoint cacheSet (c : Cache) (k : string) (v : CacheEntry) : Cache :=
  match c with
  | [] => [(k, v)]
  | (k', v') :: c' => if String.eqb k' k then (k', v) :: c' else (k', v') :: cacheSet c' k v
  end.

(** [delete(keys().next().value)]: removes the oldest entry. *)
Definition cacheDeleteOldest (c : Cache) : Cache := tl c.

Definition MAX_CACHE_SIZE : nat := 100.
Definition CACHE_EXPIRY_MS : R := 30 * 60 * 1000.

Record ExtractOptions : Type := mkExtractOptions {
  quick : option bool;
  forceRefresh : option bool;
  enhanceImage : option bool
}.

Definition truthyB (o : option bool) : bool :=
  match o with Some b => b | None => false end.

Definition cacheKey (imageDataUrl : string) : string :=
  (substring 0 100 imageDataUrl ++ zToString (Z.of_nat (String.length imageDataUrl)))%string.

(** The word post-processing: keep the words recognised with confidence
    above 40, normalise them, keep those above 0.5 with at least two
    characters, most confident first. *)
Definition processWords (ws : list OCRWord) : list OCRWord :=
  let words :=
    map (fun word => mkOCRWord (normalizeText (word_text word)) (word_confidence word / 100))
      (filter (fun word => Rltb 40 (word_confidence word)) ws) in
  sortDesc word_confidence
    (filter (fun word => (Rltb 0.5 (word_confidence word)
                          && (1 <? String.length (word_text word))%nat)%bool) words).

Definition processResult (d : OCRData) : TextResult :=
  mkTextResult (normalizeText (ocrText d)) (ocrConfidence d / 100) (processWords (ocrWords d))
    (Some (if truthyS (ocrLanguage d) then ocrLanguage d else "eng"%string)).

Definition emptyResult : TextResult := mkTextResult EmptyString 0 [] None.

(** [ocrReady]: a worker exists or [initOCR] succeeds;
    [preprocessImageForOCR] (canvas thresholding, never failing) and the
    engine's [recognize] (failing with [None]) are parameters.  [startTime]
    is [Date.now()] at the cache check, [endTime] at the cache write. *)
Section Extraction.

Variable ocrReady : bool.
Variable preprocessImageForOCR : string -> string.
Variable recognize : string -> option OCRData.

Definition processedUrl (options : ExtractOptions) (imageDataUrl : string) : string :=
  match enhanceImage options with
  | Some false => imageDataUrl
  | _ => preprocessImageForOCR imageDataUrl
  end.

Definition cachedResult (options : ExtractOptions) (cache : Cache) (now : R)
  (key : string) : option TextResult :=
  if truthyB (forceRefresh options) then None
  else
    match cacheGet cache key with
    | Some cached =>
        if Rltb (now - entryTimestamp cached) CACHE_EXPIRY_MS then
          Some (mkTextResult (resText (entryResult cached)) (resConfidence (entryResult cached))
                  (resWords (entryResult cached)) None)
        else None
    | None => None
    end.

Definition extractTextFromImage (options : ExtractOptions) (cache : Cache)
  (startTime endTime : R) (imageDataUrl : string) : TextResult * Cache :=
  let key := cacheKey imageDataUrl in
  match cachedResult options cache startTime key with
  | Some res => (res, cache)
  | None =>
      if negb ocrReady then (emptyResult, cache)
      else
        match recognize (processedUrl options imageDataUrl) with
        | None => (emptyResult, cache)
        | Some d =>
            let processed := processResult d in
            let cache' :=
              if (MAX_CACHE_SIZE <=? length cache)%nat then cacheDeleteOldest cache else cache in
            (processed, cacheSet cache' key (mkCacheEntry processed endTime))
        end
  end.

End Extraction.

(** Predicates on results, used in the properties. *)

Definition wordsOk (ws : list OCRWord) : Prop :=
  Forall (fun w => 0.5 < word_confidence w /\ (1 < String.length (word_text w))%nat) ws
  /\ StronglySorted (descBy word_confidence) ws.

Definition cacheWordsOk (cache : Cache) : Prop :=
  Forall (fun e => wordsOk (resWords (entryResult (snd e)))) cache.

(** Output alphabet of [normalizeText] *)
Definition isUpperAscii (c : ascii) : bool :=
  ((65 <=? nat_of_ascii c)%nat && (nat_of_ascii c <=? 90)%nat)%bool.

Definition normalizedChar (c : ascii) : Prop :=
  keepChar c = true /\ isUpperAscii c = false.

End OCR.

(** ** Predicates used in the properties *)

(** Sampling loop of [extractImageMetadata] *)
Definition isByte (v : Z) : Prop := (0 <= v <= 255)%Z.

Definition inUnit (o : option R) : Prop := exists x, o = Some x /\ 0 <= x <= 1.

(** Dominant colours *)
Definition quantLevels : list Z := [0; 40; 80; 120; 160; 200; 240]%Z.

Definition levelKey (key : string) : Prop :=
  exists r g b, In r quantLevels /\ In g quantLevels /\ In b quantLevels /\
    key = (zToString r ++ "," ++ zToString g ++ "," ++ zToString b)%string.

(** Visual properties similarity *)
Definition optInUnit (o : option R) : Prop :=
  match o with Some x => 0 <= x <= 1 | None => True end.

Definition fieldsInUnit (props : option VisualMetadata) : Prop :=
  match props with
  | Some md => optInUnit (brightness md) /\ optInUnit (contrast md)
               /\ optInUnit (colorEntropy md) /\ optInUnit (edgeDensity md)
  | None => True
  end.

(** ** Concrete inputs *)

Module Sample.

Definition colours : list string := ["rgb(40,80,120)"; "rgb(200,200,200)"]%string.

Definition noMetadata : VisualMetadata := mkVisualMetadata None None None None None.

Definition colouredMetadata : VisualMetadata :=
  mkVisualMetadata (Some colours) (Some 0.5) (Some 0.4) (Some 0.3) (Some 0.2).

(** A canvas-free stand-in for [extractImageMetadata]: the image
    ["data:query"] is the coloured one, every other image has no
    metadata. *)
Definition extract (url : string) : VisualMetadata :=
  if String.eqb url "data:query" then colouredMetadata else noMetadata.

Definition record (name url : string) (v : list R) (md : option VisualMetadata) : ImageRecord :=
  mkImageRecord name url v "2024-01-01T00:00:00Z" md None.

Definition stored : ImageRecord := record "a" "data:stored" [1] (Some colouredMetadata).
Definition other : ImageRecord := record "b" "data:other" [0.6; 0.8] None.

(** A unit vector opposite to the query vector [[1]]. *)
Definition opposite : ImageRecord := record "c" "data:opposite" [-1] None.

Definition helloWorldWords : list OCRWord :=
  [mkOCRWord "hello" 0.9; mkOCRWord "world" 0.9].

(** A scored record with the given similarity and text metric. *)
Definition scored (sim textMetric : R) : Scored :=
  mkScored (record "r" "data:r" [] None) sim (mkMetrics 0 0 0 0 0 textMetric) false
    (mkCharacteristics false false false false).

(** A uniform grey 40 x 40 canvas, and a 4 x 4 and a 3 x 3 black image. *)
Definition greyCanvas : list Z := repeat 128%Z (4 * size * size).
Definition black4 : ImageData := mkImageData 4 4 (repeat 0%Z 64).
Definition black3 : ImageData := mkImageData 3 3 (repeat 0%Z 36).

(** A colour map with two colours. *)
Definition twoColours : ColorMap := [("0,0,0"%string, 3); ("40,40,40"%string, 1)].

(** A recognition result, and two image URLs of equal length that agree on
    their first 100 characters. *)
Definition ocrHello : OCR.OCRData :=
  OCR.mkOCRData "Hello World" 90 [mkOCRWord "Hello" 95; mkOCRWord "World" 88] "eng".

Definition urlPrefix : string := string_of_list_ascii (repeat "A"%char 100).
Definition urlA : string := (urlPrefix ++ "1")%string.
Definition urlB : string := (urlPrefix ++ "2")%string.

Definition noOptions : OCR.ExtractOptions := OCR.mkExtractOptions None None None.

(** Two records with the embedding [[1]]: the first one's image is the
    query image and it has no stored metadata, the second one has the
    coloured metadata. *)
Definition queryRecord : ImageRecord := record "b" "data:query" [1] None.
Definition colouredRecord : ImageRecord := record "a" "data:a" [1] (Some colouredMetadata).

(** A full text-extraction cache: 100 entries with distinct keys. *)
Definition fullCache : OCR.Cache :=
  map (fun i => (string_of_list_ascii (repeat "k"%char i), OCR.mkCacheEntry OCR.emptyResult 0))
    (seq 1 OCR.MAX_CACHE_SIZE).

End Sample.

(** * Properties *)

(** ** The colour parser never matches *)

Lemma match_here_rgb_pattern (s : list ascii) :
  Regex.match_here Regex.rgb_pattern s = None.
Proof.
  unfold Regex.rgb_pattern.
  destruct s as [|c1 s]; [reflexivity|].
  cbn [Regex.match_here]. destruct (Ascii.eqb "r" c1); [|reflexivity].
  destruct s as [|c2 s]; [reflexivity|].
  cbn [Regex.match_here]. destruct (Ascii.eqb "g" c2); [|reflexivity].
  destruct s as [|c3 s]; [reflexivity|].
  cbn [Regex.match_here]. destruct (Ascii.eqb "b" c3); [|reflexivity].
  destruct s; reflexivity.
Qed.

Lemma search_rgb_pattern (s : list ascii) :
  Regex.search Regex.rgb_pattern s = None.
Proof.
  induction s as [|c s IH]; cbn [Regex.search]; rewrite match_here_rgb_pattern;
    [reflexivity | exact IH].
Qed.

Lemma parseRgb_zero (rgb : string) : parseRgb rgb = [0; 0; 0].
Proof. unfold parseRgb; rewrite search_rgb_pattern; reflexivity. Qed.

Lemma colorDistance_zero (c1 c2 : string) : colorDistance c1 c2 = 0.
Proof.
  unfold colorDistance; rewrite !parseRgb_zero; cbn [nth].
  replace (_ + _ + _) with 0 by ring.
  rewrite sqrt_0; unfold Rdiv; ring.
Qed.

Lemma bestMatch_zero (colorA : string) (l : list string) (b : R) :
  0 <= b ->
  fold_left (fun best colorB => Rmin best (colorDistance colorA colorB)) l b
  = match l with [] => b | _ => 0 end.
Proof.
  revert b; induction l as [|c l IH]; intros b Hb; [reflexivity|].
  cbn [fold_left]; rewrite colorDistance_zero, IH by (apply Rmin_glb; lra).
  rewrite Rmin_right by lra. destruct l; reflexivity.
Qed.

Lemma total_count (topB : list string) (l : list string) (x : R) :
  topB <> [] ->
  fold_left
    (fun total colorA =>
       total + (1 - fold_left (fun best colorB => Rmin best (colorDistance colorA colorB))
                      topB 1.0)) l x
  = x + INR (length l).
Proof.
  intro HB; revert x; induction l as [|c l IH]; intro x; cbn [fold_left length].
  - rewrite Rplus_0_r; reflexivity.
  - rewrite IH, bestMatch_zero by lra.
    destruct topB; [contradiction|]. rewrite S_INR; ring.
Qed.

(** Any two non-empty colour lists are judged identical. *)
Lemma colorSimilarity_nonempty (colorsA colorsB : list string) :
  colorsA <> [] -> colorsB <> [] ->
  colorSimilarity (Some colorsA) (Some colorsB) = 1.
Proof.
  intros HA HB; unfold colorSimilarity.
  destruct colorsA as [|a colorsA]; [contradiction|].
  destruct colorsB as [|b colorsB]; [contradiction|].
  cbn [length Nat.eqb orb].
  rewrite total_count by (destruct colorsB as [|? [|? ?]]; discriminate).
  rewrite Rplus_0_l.
  assert (Hpos : INR (length (firstn 3 (a :: colorsA))) <> 0).
  { destruct colorsA as [|? [|? ?]]; cbn; lra. }
  field; exact Hpos.
Qed.

(** C2: for non-empty lists of colour strings in the [rgb(R,G,B)] format of
    the metadata extraction, [colorSimilarity] is exactly [1]: the pattern
    [/rgb$$(\d+),(\d+),(\d+)$$/] matches no string, so every colour parses
    to [[0,0,0]] and every colour distance is [0]. *)
Theorem colorSimilarity_rgb_format_is_one (colorsA colorsB : list string) :
  colorsA <> [] -> colorsB <> [] ->
  Forall rgb_format colorsA -> Forall rgb_format colorsB ->
  colorSimilarity (Some colorsA) (Some colorsB) = 1.
Proof. intros HA HB _ _; apply colorSimilarity_nonempty; assumption. Qed.

(** ** Missing or empty colour lists *)

(** C9: [colorSimilarity] is exactly [0.5] when either colour list is
    missing or empty, whatever the other list is. *)
Theorem colorSimilarity_missing_or_empty (colorsA colorsB : option (list string)) :
  (colorsA = None \/ colorsA = Some []) \/ (colorsB = None \/ colorsB = Some []) ->
  colorSimilarity colorsA colorsB = 0.5.
Proof.
  intro H; unfold colorSimilarity.
  destruct colorsA as [a|], colorsB as [b|]; try reflexivity.
  destruct H as [[H|H]|[H|H]]; try discriminate; injection H as ->;
    cbn [length Nat.eqb]; [reflexivity | rewrite orb_true_r; reflexivity].
Qed.

(** ** Threshold bounds *)

Lemma clamp_bounds (t : R) : 0.4 <= Rmin (Rmax 0.4 t) 0.85 <= 0.85.
Proof. unfold Rmin, Rmax; rcases. Qed.

(** C8: the threshold selector returns a value of [[0.4, 0.85]], for every
    batch (empty or not) and every statistics record. *)
Theorem determineOptimalThreshold_in_bounds (results : list Scored) (stats : Stats) :
  0.4 <= determineOptimalThreshold results stats <= 0.85.
Proof. unfold determineOptimalThreshold; apply clamp_bounds. Qed.

(** ** Search output *)

(** C7: every resolved search returns at most 15 records, and each of them
    has a similarity strictly above the threshold computed for the call. *)
Theorem search_at_most_15_above_threshold
    (extract : string -> VisualMetadata) (images : list ImageRecord)
    (embedding0 : list R) (query : option TextContent) (out : list Scored) :
  searchImagesByEmbedding extract images embedding0 query = Some out ->
  (length out <= 15)%nat /\
  (forall sorted threshold,
      searchRanking extract images embedding0 query = Some (sorted, threshold) ->
      forall r, In r out -> threshold < similarity r).
Proof.
  unfold searchImagesByEmbedding; destruct images as [|img0 rest].
  - intro H; injection H as <-; split; [cbn; lia | intros ? ? ? r []].
  - destruct (searchRanking extract (img0 :: rest) embedding0 query)
      as [[sorted threshold]|] eqn:Hr; [|discriminate].
    intro H.
    assert (Hout : firstn 15 (filter (fun img => Rltb threshold (similarity img)) sorted) = out)
      by congruence.
    rewrite <- Hout; clear H Hout; split.
    + apply firstn_le_length.
    + intros sorted' threshold' Hr' r Hin; rewrite Hr' in Hr.
      assert (sorted' = sorted /\ threshold' = threshold) as [-> ->]
        by (split; congruence).
      set (filtered := filter _ sorted) in Hin.
      assert (Hf : In r filtered).
      { rewrite <- (firstn_skipn 15 filtered); apply in_or_app; left; exact Hin. }
      apply filter_In in Hf as [_ Hlt].
      unfold Rltb in Hlt; destruct (Rlt_dec threshold (similarity r)); [assumption|discriminate].
Qed.

Lemma colorSimilarity_rgb_format_is_one_witness :
  colorSimilarity (Some Sample.colours) (Some ["rgb(0,0,0)"%string]) = 1.
Proof.
  apply colorSimilarity_rgb_format_is_one; try discriminate.
  - constructor; [exists "40"%string, "80"%string, "120"%string
                 | constructor; [exists "200"%string, "200"%string, "200"%string|constructor]];
      repeat split; try discriminate; reflexivity.
  - constructor; [exists "0"%string, "0"%string, "0"%string|constructor];
      repeat split; try discriminate; reflexivity.
Defined.

Lemma colorSimilarity_missing_or_empty_witness :
  colorSimilarity (Some Sample.colours) (Some []) = 0.5.
Proof. apply colorSimilarity_missing_or_empty; right; right; reflexivity. Defined.

Lemma search_at_most_15_above_threshold_witness :
  exists out,
    searchImagesByEmbedding Sample.extract [Sample.stored] [1] None = Some out /\
    (length out <= 15)%nat /\
    (forall sorted threshold,
        searchRanking Sample.extract [Sample.stored] [1] None = Some (sorted, threshold) ->
        forall r, In r out -> threshold < similarity r).
Proof.
  assert (Hs : searchRanking Sample.extract [Sample.stored] [1] None <> None)
    by (simpl; discriminate).
  destruct (searchImagesByEmbedding Sample.extract [Sample.stored] [1] None)
    as [out|] eqn:E.
  - exists out; split; [reflexivity|].
    exact (search_at_most_15_above_threshold Sample.extract [Sample.stored] [1] None out E).
  - exfalso; unfold searchImagesByEmbedding in E.
    destruct (searchRanking Sample.extract [Sample.stored] [1] None) as [[? ?]|];
      [discriminate | apply Hs; reflexivity].
Defined.

(** ** Query-side visual metadata *)

Lemma searchRanking_unfold (extract : string -> VisualMetadata) (img0 : ImageRecord)
    (rest : list ImageRecord) (embedding0 : list R) (query : option TextContent) :
  searchRanking extract (img0 :: rest) embedding0 query
  = option_map rankResults
      (calculateSimilarities (img0 :: rest) embedding0 (extract (dataUrl img0)) query).
Proof.
  unfold searchRanking, queryMetadataOf.
  destruct (calculateSimilarities _ _ _ _); reflexivity.
Qed.

(** C1 (the code does not derive the query metadata from the query image):
    the search scores every record against
    [extractImageMetadata(images[0].dataUrl)], the metadata of the first
    stored record.  With a store holding the single record ["data:stored"],
    whose colours are those of the query image ["data:query"], the query
    side has no colours and the colour metric is the neutral [0.5], while
    the query image's own metadata would give [1]. *)
Theorem search_query_metadata_from_stored_record :
  queryMetadataOf Sample.extract [Sample.stored] = Some (Sample.extract "data:stored") /\
  Sample.extract "data:stored" <> Sample.extract "data:query" /\
  (forall sorted threshold,
      searchRanking Sample.extract [Sample.stored] [1] None = Some (sorted, threshold) ->
      map (fun r => m_color (metrics r)) sorted = [0.5]) /\
  colorComponent (Sample.extract "data:query") Sample.stored = 1.
Proof.
  split; [reflexivity|]. split; [discriminate|]. split.
  - intros sorted threshold H. rewrite searchRanking_unfold in H.
    simpl in H. injection H as <- _. reflexivity.
  - apply colorSimilarity_nonempty; discriminate.
Qed.

(** ** Euclidean similarity of unit vectors *)

(** C4 (the normalisation by [Math.sqrt(2)] does not keep the score in
    [[0,1]]): the unit vectors [[1]] and [[-1]] are at distance [2], and
    their euclidean similarity [1 - 2 / sqrt 2] is negative. *)
Theorem euclidean_similarity_opposite_unit_vectors :
  exists s, scoreImage [1] Sample.noMetadata None Sample.opposite = Some s /\
            m_euclidean (metrics s) = 1 - 2 / sqrt 2 /\
            m_euclidean (metrics s) < 0.
Proof.
  eexists; split; [reflexivity|]. cbn.
  replace (0 + (1 - -1) * (1 - -1)) with (2 * 2) by ring.
  rewrite sqrt_square by lra.
  split; [reflexivity|].
  assert (Hs : sqrt 2 * sqrt 2 = 2) by (apply sqrt_sqrt; lra).
  assert (Hp : 0 < sqrt 2) by (apply sqrt_lt_R0; lra).
  replace (2 / sqrt 2) with (sqrt 2).
  2: { apply Rmult_eq_reg_r with (sqrt 2); [|lra].
       unfold Rdiv; rewrite Rmult_assoc, Rinv_l by lra; lra. }
  nra.
Qed.


(** ** Adaptive weights *)

Ltac wsimp :=
  cbn [w_cosine w_euclidean w_manhattan w_color w_visualProps w_text baseWeights
       isTextHeavy isColorful isDetailed orb].

Lemma adjustForCosine_cases (cosSim : R) (w : Weights) :
  adjustForCosine cosSim w = w \/
  adjustForCosine cosSim w = mkWeights (Rmin 0.4 (w_cosine w * 1.2)) (w_euclidean w)
                               (w_manhattan w) (w_color w) (w_visualProps w) (w_text w).
Proof. unfold adjustForCosine; destruct (Rltb 0.8 cosSim); [right|left]; reflexivity. Qed.

Lemma adjustForColor_cases (colorSim : R) (w : Weights) :
  adjustForColor colorSim w = w \/
  adjustForColor colorSim w = mkWeights (w_cosine w) (w_euclidean w) (w_manhattan w)
                                (Rmin 0.3 (w_color w * 1.2)) (w_visualProps w) (w_text w).
Proof. unfold adjustForColor; destruct (Rltb 0.8 colorSim); [right|left]; reflexivity. Qed.

(** Case analysis on the five steps of the weight selector, from the last
    one inwards, so that no step is unfolded into its argument before that
    argument is a record literal. *)
Ltac weights_cases :=
  unfold rawAdaptiveWeights;
  match goal with |- context [adjustForColor ?c ?w] =>
    let E := fresh "E" in
    destruct (adjustForColor_cases c w) as [E|E]; rewrite E; clear E end;
  match goal with |- context [adjustForCosine ?c ?w] =>
    let E := fresh "E" in
    destruct (adjustForCosine_cases c w) as [E|E]; rewrite E; clear E end;
  wsimp;
  match goal with |- context [adjustForDetailed (mkCharacteristics ?th ?col ?hc ?det) _] =>
    destruct th, col, det end;
  match goal with |- context [adjustForText _ ?hs _ _] => destruct hs end;
  cbn [adjustForDetailed adjustForColorful adjustForText isTextHeavy isColorful isDetailed orb
       w_cosine w_euclidean w_manhattan w_color w_visualProps w_text baseWeights];
  unfold Rmin.

(** With a non-negative text score the weights before normalisation have a
    positive sum. *)
Lemma rawAdaptiveWeights_total_pos (ch : Characteristics) (hasSignificantText : bool)
    (textSim cosSim euclideanSim colorSim : R) :
  0 <= textSim ->
  0 < totalWeight (rawAdaptiveWeights ch hasSignificantText textSim cosSim euclideanSim colorSim).
Proof.
  intro Ht; destruct ch as [th col hc det]; unfold totalWeight.
  weights_cases; rcases.
Qed.

Lemma weightSum_getAdaptiveWeights (ch : Characteristics) (hasSignificantText : bool)
    (textSim cosSim euclideanSim colorSim : R) :
  totalWeight (rawAdaptiveWeights ch hasSignificantText textSim cosSim euclideanSim colorSim) <> 0 ->
  weightSum (getAdaptiveWeights ch hasSignificantText textSim cosSim euclideanSim colorSim) = 1.
Proof.
  unfold getAdaptiveWeights, weightSum; wsimp.
  set (w := rawAdaptiveWeights _ _ _ _ _ _); unfold totalWeight; intro Hnz.
  field; intro H0; apply Hnz; lra.
Qed.

(** C6: for every combination of characteristic flags and
    [hasSignificantText], and every raw cosine, euclidean and colour
    score, the six weights returned by the adaptive weight selector sum to
    [1], hence to [1] within [1e-9].  The selector is private to db.ts;
    its only caller passes as text score the value of [textComponent],
    which is [0] or [calculateTextSimilarity], in [[0, 1]] for word
    confidences in [[0, 1]]; the theorem holds for every non-negative text
    score. *)
Theorem getAdaptiveWeights_sum_one (ch : Characteristics) (hasSignificantText : bool)
    (textSim cosSim euclideanSim colorSim : R) :
  0 <= textSim ->
  weightSum (getAdaptiveWeights ch hasSignificantText textSim cosSim euclideanSim colorSim) = 1 /\
  Rabs (weightSum (getAdaptiveWeights ch hasSignificantText textSim cosSim euclideanSim colorSim)
        - 1) <= 1 / 1000000000.
Proof.
  intro Ht.
  rewrite weightSum_getAdaptiveWeights
    by (apply Rgt_not_eq, rawAdaptiveWeights_total_pos; exact Ht).
  split; [reflexivity|]. rewrite Rminus_diag, Rabs_R0; lra.
Qed.

Lemma rawAdaptiveWeights_pos (ch : Characteristics) (hasSignificantText : bool)
    (textSim cosSim euclideanSim colorSim : R) :
  0 <= textSim <= 1 ->
  let w := rawAdaptiveWeights ch hasSignificantText textSim cosSim euclideanSim colorSim in
  0 < w_cosine w /\ 0 < w_euclidean w /\ 0 < w_manhattan w /\
  0 < w_color w /\ 0 < w_visualProps w /\ 0 < w_text w.
Proof.
  intros Ht w; subst w; destruct ch as [th col hc det].
  weights_cases; repeat split; rcases.
Qed.

Lemma ratio_in_unit (a total : R) : 0 < a -> a < total -> 0 < a / total < 1.
Proof.
  intros Ha Hlt; split.
  - apply Rdiv_lt_0_compat; lra.
  - apply (Rmult_lt_reg_r total); [lra|].
    unfold Rdiv; rewrite Rmult_assoc, Rinv_l by lra; lra.
Qed.

(** C10: for every input the adaptive weight selector receives, the six
    weights before normalisation are strictly positive, so their sum is
    not zero, and every returned weight lies strictly between [0] and [1].
    The selector is private to db.ts; its only caller passes as text score
    the value of [textComponent], which is [0] or [calculateTextSimilarity],
    in [[0, 1]] for word confidences in [[0, 1]]; the other scores are
    arbitrary. *)
Theorem getAdaptiveWeights_positive (ch : Characteristics) (hasSignificantText : bool)
    (textSim cosSim euclideanSim colorSim : R) :
  0 <= textSim <= 1 ->
  let w := rawAdaptiveWeights ch hasSignificantText textSim cosSim euclideanSim colorSim in
  let n := getAdaptiveWeights ch hasSignificantText textSim cosSim euclideanSim colorSim in
  (0 < w_cosine w /\ 0 < w_euclidean w /\ 0 < w_manhattan w /\
   0 < w_color w /\ 0 < w_visualProps w /\ 0 < w_text w) /\
  totalWeight w <> 0 /\
  (0 < w_cosine n < 1 /\ 0 < w_euclidean n < 1 /\ 0 < w_manhattan n < 1 /\
   0 < w_color n < 1 /\ 0 < w_visualProps n < 1 /\ 0 < w_text n < 1).
Proof.
  intros Ht w n.
  pose proof (rawAdaptiveWeights_pos ch hasSignificantText textSim cosSim euclideanSim
                colorSim Ht) as Hp.
  fold w in Hp; destruct Hp as (H1 & H2 & H3 & H4 & H5 & H6).
  split; [repeat split; assumption|].
  split; [unfold totalWeight; lra|].
  subst n; unfold getAdaptiveWeights; fold w; wsimp.
  unfold totalWeight.
  repeat split; apply ratio_in_unit; lra.
Qed.

Lemma getAdaptiveWeights_sum_one_witness :
  weightSum (getAdaptiveWeights (mkCharacteristics true true false true) true 0.5 0.9 0.7 0.85) = 1 /\
  Rabs (weightSum (getAdaptiveWeights (mkCharacteristics true true false true) true 0.5 0.9 0.7 0.85)
        - 1) <= 1 / 1000000000.
Proof. apply getAdaptiveWeights_sum_one; lra. Defined.

Lemma getAdaptiveWeights_positive_witness :
  let w := rawAdaptiveWeights (mkCharacteristics false true false true) true 0.3 0.9 0.7 0.85 in
  let n := getAdaptiveWeights (mkCharacteristics false true false true) true 0.3 0.9 0.7 0.85 in
  (0 < w_cosine w /\ 0 < w_euclidean w /\ 0 < w_manhattan w /\
   0 < w_color w /\ 0 < w_visualProps w /\ 0 < w_text w) /\
  totalWeight w <> 0 /\
  (0 < w_cosine n < 1 /\ 0 < w_euclidean n < 1 /\ 0 < w_manhattan n < 1 /\
   0 < w_color n < 1 /\ 0 < w_visualProps n < 1 /\ 0 < w_text n < 1).
Proof. apply getAdaptiveWeights_positive; lra. Defined.

(** ** Text similarity of identical OCR results *)

(** C3 (as amended): for two identical OCR inputs with text
    ["hello world"] and words [[{hello, 0.9}, {world, 0.9}]], the weighted
    Jaccard component is [0.9], not [1]: the intersection multiplies the
    confidences of both sides ([0.81 + 0.81]), the union counts one
    confidence per word ([0.9 + 0.9]).  The fuzzy component is [0], the
    phrase bonus is [0.2 + 0.1 * 2 = 0.4] and the combined similarity is
    [0.5 * 0.9 + 0.3 * 0.4 = 0.57], whatever the overall confidence. *)
Theorem hello_world_text_components (c : R) :
  let t := mkTextContent "hello world" c Sample.helloWorldWords in
  let m := Text.buildWordMap (words t) in
  Text.weightedJaccard m m = 0.9 /\ Text.calculateFuzzyMatches m m = 0 /\
  Text.calculatePhraseMatches (text t) (text t) = 0.4 /\
  Text.calculateTextSimilarity t t = 0.57.
Proof.
  intros t m; subst t m; unfold Sample.helloWorldWords.
  repeat split; rcompute.
Qed.

(** C3: the weighted Jaccard component of these identical inputs is not
    [1]. *)
Lemma hello_world_jaccard_not_one :
  let m := Text.buildWordMap Sample.helloWorldWords in
  Text.weightedJaccard m m <> 1.
Proof.
  intro m; subst m; unfold Sample.helloWorldWords.
  intro H; revert H; rcompute.
Qed.

(** ** Threshold and the largest gap *)

Lemma findGapIndexFrom_range (l : list R) (t : R) (k : Z) :
  findGapIndexFrom l t k = (-1)%Z \/
  (k <= findGapIndexFrom l t k /\
   findGapIndexFrom l t k + 2 <= k + Z.of_nat (length l))%Z.
Proof.
  revert k; induction l as [|x l IH]; intro k; [left; reflexivity|].
  destruct l as [|y l']; [left; reflexivity|].
  change (findGapIndexFrom (x :: y :: l') t k) with
    (if Rltb (Rabs (x - y - t)) 0.001 then k
     else findGapIndexFrom (y :: l') t (k + 1)).
  destruct (Rltb _ _).
  - right; cbn [length]; lia.
  - destruct (IH (k + 1)%Z) as [E|[E1 E2]]; [left; exact E|right].
    cbn [length] in *; lia.
Qed.

Lemma existsb_text_false (results : list Scored) :
  (forall r, In r results -> m_text (metrics r) <= 0.5) ->
  existsb (fun r => Rltb 0.5 (m_text (metrics r))) results = false.
Proof.
  induction results as [|r rs IH]; intro H; [reflexivity|].
  cbn [existsb]; rewrite (Rltb_false _ _ (Rle_not_lt _ _ (H r (or_introl eq_refl)))).
  apply IH; intros r' Hr'; apply H; right; exact Hr'.
Qed.

(** C5 (as amended): for a batch of at least 3 results whose largest gap
    exceeds [0.1], found by [findGapIndex] at a positive index [i], and in
    which no result has a text metric above [0.5], the threshold is at
    least the minimum of [0.85] and the midpoint of the scores at [i] and
    [i + 1].  A text match lowers the threshold by the factor [0.9] after
    the gap rule, and a gap found at index [0] is skipped by the test
    [gapIndex > 0]. *)
Theorem threshold_at_least_gap_midpoint (results : list Scored) :
  (3 <= length results)%nat ->
  0.1 < nth 0 (gaps (analyzeDistribution (map similarity results))) 0 ->
  (0 < findGapIndex (map similarity results)
         (nth 0 (gaps (analyzeDistribution (map similarity results))) 0%R))%Z ->
  (forall r, In r results -> m_text (metrics r) <= 0.5) ->
  let i := Z.to_nat (findGapIndex (map similarity results)
             (nth 0 (gaps (analyzeDistribution (map similarity results))) 0)) in
  Rmin 0.85 ((simAt results i + simAt results (S i)) / 2) <=
  determineOptimalThreshold results (analyzeDistribution (map similarity results)).
Proof.
  intros Hlen Hgap Hpos Htext i; subst i.
  set (stats := analyzeDistribution (map similarity results)) in *.
  set (gi := findGapIndex (map similarity results) (nth 0 (gaps stats) 0)) in *.
  assert (Hrange : (gi + 2 <= Z.of_nat (length results))%Z).
  { destruct (findGapIndexFrom_range (map similarity results) (nth 0 (gaps stats) 0) 0)
      as [E|[_ E]].
    - unfold gi, findGapIndex in Hpos; rewrite E in Hpos; lia.
    - unfold gi, findGapIndex; rewrite length_map in E; lia. }
  unfold determineOptimalThreshold; fold stats; fold gi.
  rewrite (proj2 (Nat.leb_le _ _) Hlen).
  destruct (gaps stats) as [|g0 gs] eqn:Eg; [cbn in Hgap; lra|].
  cbn [nth length] in *.
  rewrite (Rltb_true _ _ Hgap).
  replace ((0 <? gi)%Z && (gi <? Z.of_nat (length results) - 1)%Z)%bool with true
    by (symmetry; apply andb_true_intro; split; apply Z.ltb_lt; lia).
  rewrite (existsb_text_false _ Htext).
  change ((0 <? S (length gs))%nat && true)%bool with true; cbn beta iota zeta.
  destruct (Rltb 0.2 (nth 0 (quartiles stats) 0 - nth 2 (quartiles stats) 0));
    destruct (Rltb 0.8 (simAt results 0) && (1 <? length results)%nat
              && Rltb 0.2 (simAt results 0 - simAt results 1))%bool;
    unfold Rmin, Rmax; rcases.
Qed.

Lemma analyzeDistribution_three (a b c : R) :
  c < b -> b < a -> a - b < b - c ->
  quartiles (analyzeDistribution [a; b; c]) = [a; b; c] /\
  gaps (analyzeDistribution [a; b; c]) = [b - c; a - b].
Proof.
  intros Hcb Hba Hgap.
  unfold analyzeDistribution, sortDesc; cbn [fold_left insertDesc length].
  repeat first
    [ rewrite (Rltb_false _ _) by lra
    | rewrite (Rltb_true _ _) by lra
    | progress cbn [insertDesc consecutiveGaps fold_left] ].
  split; reflexivity.
Qed.

Lemma sample_similarities (t0 t1 t2 : R) :
  map similarity [Sample.scored 0.7 t0; Sample.scored 0.65 t1; Sample.scored 0.3 t2]
  = [0.7; 0.65; 0.3].
Proof. reflexivity. Qed.

Lemma sample_gap_index :
  findGapIndex [0.7; 0.65; 0.3] (0.65 - 0.3) = 1%Z.
Proof.
  unfold findGapIndex; cbn [findGapIndexFrom]; unfold Rltb, Rabs; rcases; reflexivity.
Qed.

(** C5: the batch [0.7; 0.65; 0.3] in which the top result has a text
    metric [0.6].  The largest gap, [0.35], lies between [0.65] and [0.3]
    (index 1), so the claimed bound is [min(0.85, 0.475) = 0.475]; the text
    rule turns the threshold [0.475] into [max(0.4, 0.4275) = 0.4275]. *)
Lemma threshold_below_gap_midpoint_with_text_match :
  let results := [Sample.scored 0.7 0.6; Sample.scored 0.65 0; Sample.scored 0.3 0] in
  let stats := analyzeDistribution (map similarity results) in
  nth 0 (gaps stats) 0 = 0.35 /\
  findGapIndex (map similarity results) (nth 0 (gaps stats) 0) = 1%Z /\
  determineOptimalThreshold results stats = 0.4275 /\
  determineOptimalThreshold results stats < Rmin 0.85 ((simAt results 1 + simAt results 2) / 2).
Proof.
  intros results stats; subst results stats.
  rewrite sample_similarities.
  destruct (analyzeDistribution_three 0.7 0.65 0.3) as [Hq Hg]; try lra.
  unfold determineOptimalThreshold, simAt; rewrite sample_similarities, Hq, Hg.
  cbn [nth]; rewrite sample_gap_index; change (Z.to_nat 1) with 1%nat.
  refine (conj _ (conj eq_refl (conj _ _))); [lra | |].
  all: unfold Sample.scored; cbn [length Nat.leb Nat.ltb existsb m_text metrics nth
         Z.to_nat Z.ltb Z.compare Z.sub Z.add Z.opp Z.pos_sub Z.of_nat andb Pos.to_nat
         Pos.iter_op Nat.add similarity Pos.of_succ_nat Pos.succ Pos.pred_double
         Pos.compare Pos.compare_cont].
  all: repeat first [rewrite (Rltb_true _ _) by lra | rewrite (Rltb_false _ _) by lra];
         cbn [orb andb].
  all: unfold Rmin, Rmax; rcases.
Qed.

Lemma threshold_at_least_gap_midpoint_witness :
  let results := [Sample.scored 0.7 0; Sample.scored 0.65 0; Sample.scored 0.3 0] in
  let i := Z.to_nat (findGapIndex (map similarity results)
             (nth 0 (gaps (analyzeDistribution (map similarity results))) 0)) in
  Rmin 0.85 ((simAt results i + simAt results (S i)) / 2) <=
  determineOptimalThreshold results (analyzeDistribution (map similarity results)).
Proof.
  apply threshold_at_least_gap_midpoint.
  - cbn; lia.
  - rewrite sample_similarities.
    destruct (analyzeDistribution_three 0.7 0.65 0.3) as [_ Hg]; try lra.
    rewrite Hg; cbn; lra.
  - rewrite sample_similarities.
    destruct (analyzeDistribution_three 0.7 0.65 0.3) as [_ Hg]; try lra.
    rewrite Hg; cbn [nth]; rewrite sample_gap_index; reflexivity.
  - intros r Hr; cbn in Hr;
      destruct Hr as [<-|[<-|[<-|[]]]]; cbn; lra.
Defined.

(** * Further properties of the code *)

(** ** Vector metrics and normalisation *)

Lemma fold_left_add_shift {A : Type} (g : A -> R) (l : list A) (s : R) :
  fold_left (fun acc p => acc + g p) l s = s + fold_left (fun acc p => acc + g p) l 0.
Proof.
  revert s; induction l as [|x l IH]; intro s; cbn; [ring|].
  rewrite (IH (s + g x)), (IH (0 + g x)); ring.
Qed.

Lemma sum_pairs_nil_l (f : R -> R -> R) (b : list R) : sum_pairs f [] b = 0.
Proof. reflexivity. Qed.

Lemma sum_pairs_cons (f : R -> R -> R) (x y : R) (a b : list R) :
  sum_pairs f (x :: a) (y :: b) = f x y + sum_pairs f a b.
Proof.
  unfold sum_pairs; cbn [combine fold_left fst snd].
  rewrite (fold_left_add_shift (fun p => f (fst p) (snd p))); ring.
Qed.

Lemma sum_pairs_nonneg (f : R -> R -> R) (a b : list R) :
  (forall x y, 0 <= f x y) -> 0 <= sum_pairs f a b.
Proof.
  intro Hf; revert b; induction a as [|x a IH]; intros [|y b];
    try (unfold sum_pairs; cbn; lra).
  rewrite sum_pairs_cons; specialize (IH b); specialize (Hf x y); lra.
Qed.

Lemma square_nonneg (x : R) : 0 <= x * x.
Proof. nra. Qed.

(** Cauchy-Schwarz over the sums of the vector metrics. *)
Lemma sum_pairs_cauchy_schwarz (a b : list R) :
  let S := sum_pairs (fun x y => x * y) a b in
  S * S <= sum_pairs (fun x _ => x * x) a b * sum_pairs (fun _ y => y * y) a b.
Proof.
  revert b; induction a as [|x a IH]; intros [|y b]; cbn zeta;
    try (unfold sum_pairs; cbn; lra).
  rewrite !sum_pairs_cons.
  specialize (IH b); cbn zeta in IH.
  set (S := sum_pairs (fun x y => x * y) a b) in *.
  set (A := sum_pairs (fun x _ => x * x) a b) in *.
  set (B := sum_pairs (fun _ y => y * y) a b) in *.
  assert (HA : 0 <= A) by (apply sum_pairs_nonneg; intros; apply square_nonneg).
  assert (HB : 0 <= B) by (apply sum_pairs_nonneg; intros; apply square_nonneg).
  assert (Hk : 2 * (x * y) * S <= x * x * B + y * y * A).
  { destruct (Req_dec B 0) as [HB0|HB0].
    - assert (HS2 : S * S = 0) by (rewrite HB0 in IH; pose proof (square_nonneg S); lra).
      apply Rmult_integral in HS2.
      assert (HS : S = 0) by (destruct HS2; assumption).
      rewrite HS, HB0. pose proof (square_nonneg y). nra.
    - assert (E : B * (x * x * B + y * y * A - 2 * (x * y) * S)
                  = (x * B - y * S) * (x * B - y * S) + y * y * (A * B - S * S)) by ring.
      assert (0 <= B * (x * x * B + y * y * A - 2 * (x * y) * S)).
      { rewrite E. pose proof (square_nonneg (x * B - y * S)).
        assert (0 <= y * y * (A * B - S * S))
          by (apply Rmult_le_pos; [apply square_nonneg | lra]).
        lra. }
      assert (0 < B) by lra.
      assert (0 <= x * x * B + y * y * A - 2 * (x * y) * S).
      { apply (Rmult_le_reg_l B); [lra|]. lra. }
      lra. }
  assert (Hxy : 0 <= x * x * B + y * y * A - 2 * (x * y) * S + (S * S) + 0 - S * S) by lra.
  replace ((x * y + S) * (x * y + S)) with (x * x * (y * y) + 2 * (x * y) * S + S * S) by ring.
  replace ((x * x + A) * (y * y + B)) with (x * x * (y * y) + x * x * B + y * y * A + A * B) by ring.
  lra.
Qed.


(** X1: on vectors of equal length the cosine similarity is defined and
    lies in [[-1,1]]. *)
Theorem cosineSimilarity_in_range (a b : list R) :
  length a = length b ->
  exists c, cosineSimilarity a b = Some c /\ -1 <= c <= 1.
Proof.
  intro E; unfold cosineSimilarity.
  rewrite (proj2 (Nat.eqb_eq _ _) E); cbn [negb].
  eexists; split; [reflexivity|].
  pose proof (sum_pairs_cauchy_schwarz a b) as CS; cbn zeta in CS.
  set (S := sum_pairs (fun x y => x * y) a b) in *.
  set (A := sum_pairs (fun x _ => x * x) a b) in *.
  set (B := sum_pairs (fun _ y => y * y) a b) in *.
  assert (HA : 0 <= A) by (apply sum_pairs_nonneg; intros; apply square_nonneg).
  assert (HB : 0 <= B) by (apply sum_pairs_nonneg; intros; apply square_nonneg).
  destruct (Req_EM_T (sqrt A) 0); [lra|].
  destruct (Req_EM_T (sqrt B) 0); [lra|].
  assert (Hp : 0 < sqrt A * sqrt B).
  { pose proof (sqrt_pos A); pose proof (sqrt_pos B). apply Rmult_lt_0_compat; lra. }
  assert (Habs : Rabs S <= sqrt A * sqrt B).
  { rewrite <- sqrt_mult by assumption.
    rewrite <- (sqrt_Rsqr_abs S). apply sqrt_le_1_alt. unfold Rsqr; lra. }
  assert (Hs : - (sqrt A * sqrt B) <= S <= sqrt A * sqrt B).
  { unfold Rabs in Habs; destruct (Rcase_abs S); lra. }
  unfold Rdiv; split.
  - apply (Rmult_le_reg_r (sqrt A * sqrt B)); [lra|].
    rewrite Rmult_assoc, Rinv_l by lra; lra.
  - apply (Rmult_le_reg_r (sqrt A * sqrt B)); [lra|].
    rewrite Rmult_assoc, Rinv_l by lra; lra.
Qed.

Lemma cosineSimilarity_in_range_witness :
  length [1; 2] = length [3; -4] /\ exists c, cosineSimilarity [1; 2] [3; -4] = Some c /\ -1 <= c <= 1.
Proof. split; [reflexivity | apply cosineSimilarity_in_range; reflexivity]. Defined.

Lemma sum_pairs_sq_diff (a b : list R) :
  sum_pairs (fun x y => (x - y) * (x - y)) a b =
  sum_pairs (fun x _ => x * x) a b + sum_pairs (fun _ y => y * y) a b
  - 2 * sum_pairs (fun x y => x * y) a b.
Proof.
  revert b; induction a as [|x a IH]; intros [|y b]; try (unfold sum_pairs; cbn; lra).
  rewrite !sum_pairs_cons, IH; ring.
Qed.

Lemma sum_pairs_sq_le_abs_sq (a b : list R) :
  sum_pairs (fun x y => (x - y) * (x - y)) a b <=
  sum_pairs (fun x y => Rabs (x - y)) a b * sum_pairs (fun x y => Rabs (x - y)) a b.
Proof.
  revert b; induction a as [|x a IH]; intros [|y b]; try (unfold sum_pairs; cbn; lra).
  rewrite !sum_pairs_cons; specialize (IH b).
  assert (HM : 0 <= sum_pairs (fun x y => Rabs (x - y)) a b)
    by (apply sum_pairs_nonneg; intros; apply Rabs_pos).
  set (M := sum_pairs (fun x y => Rabs (x - y)) a b) in *.
  set (E := sum_pairs (fun x y => (x - y) * (x - y)) a b) in *.
  assert (Hd : Rabs (x - y) * Rabs (x - y) = (x - y) * (x - y))
    by (rewrite <- Rabs_mult; apply Rabs_right; apply Rle_ge, square_nonneg).
  assert (0 <= Rabs (x - y) * M) by (apply Rmult_le_pos; [apply Rabs_pos | exact HM]).
  nra.
Qed.

(** X2: on vectors of equal length both distances are defined and the
    Euclidean distance is non-negative and at most the Manhattan distance. *)
Theorem euclidean_le_manhattan (a b : list R) :
  length a = length b ->
  exists e m, euclideanDistance a b = Some e /\ manhattanDistance a b = Some m /\ 0 <= e <= m.
Proof.
  intro E; unfold euclideanDistance, manhattanDistance.
  rewrite (proj2 (Nat.eqb_eq _ _) E); cbn [negb].
  do 2 eexists; split; [reflexivity | split; [reflexivity|]].
  split; [apply sqrt_pos|].
  assert (HM : 0 <= sum_pairs (fun x y => Rabs (x - y)) a b)
    by (apply sum_pairs_nonneg; intros; apply Rabs_pos).
  rewrite <- (sqrt_square (sum_pairs (fun x y => Rabs (x - y)) a b)) by exact HM.
  apply sqrt_le_1_alt, sum_pairs_sq_le_abs_sq.
Qed.

Lemma euclidean_le_manhattan_witness :
  length [1; 2] = length [3; -4] /\
  exists e m, euclideanDistance [1; 2] [3; -4] = Some e /\
              manhattanDistance [1; 2] [3; -4] = Some m /\ 0 <= e <= m.
Proof. split; [reflexivity | apply euclidean_le_manhattan; reflexivity]. Defined.

(** X3: on vectors of equal length the Euclidean distance is [0] exactly
    when the vectors are equal. *)
Theorem euclideanDistance_zero_iff_equal (a b : list R) :
  length a = length b -> (euclideanDistance a b = Some 0 <-> a = b).
Proof.
  intro E; unfold euclideanDistance.
  rewrite (proj2 (Nat.eqb_eq _ _) E); cbn [negb].
  assert (Hz : sum_pairs (fun x y => (x - y) * (x - y)) a b = 0 <-> a = b).
  { revert b E; induction a as [|x a IH]; intros [|y b] E; cbn in E; try discriminate.
    - split; reflexivity.
    - injection E as E.
      rewrite sum_pairs_cons.
      assert (H0 : 0 <= sum_pairs (fun x y => (x - y) * (x - y)) a b)
        by (apply sum_pairs_nonneg; intros; apply square_nonneg).
      pose proof (square_nonneg (x - y)) as H1.
      split.
      + intro H. assert (Hd : (x - y) * (x - y) = 0) by lra.
        assert (Hr : sum_pairs (fun x y => (x - y) * (x - y)) a b = 0) by lra.
        apply Rmult_integral in Hd.
        assert (x = y) by (destruct Hd; lra).
        apply (IH b E) in Hr. subst; reflexivity.
      + intro H; injection H as <- <-.
        rewrite (proj2 (IH a eq_refl) eq_refl); ring. }
  split.
  - intro H; injection H as H; apply Hz.
    pose proof (sum_pairs_nonneg (fun x y => (x - y) * (x - y)) a b
                  (fun x y => square_nonneg (x - y))) as H0.
    rewrite <- (sqrt_sqrt (sum_pairs (fun x y => (x - y) * (x - y)) a b)) by exact H0.
    rewrite H; ring.
  - intro H; rewrite (proj2 Hz H), sqrt_0; reflexivity.
Qed.

Lemma euclideanDistance_zero_iff_equal_witness :
  length [1; 2] = length [1; 2] /\ (euclideanDistance [1; 2] [1; 2] = Some 0 <-> [1; 2] = [1; 2]).
Proof. split; [reflexivity | apply euclideanDistance_zero_iff_equal; reflexivity]. Defined.

Lemma sumSquares_cons (x : R) (v : list R) : sumSquares (x :: v) = x * x + sumSquares v.
Proof.
  unfold sumSquares; cbn [fold_left].
  rewrite (fold_left_add_shift (fun val => val * val) v (0 + x * x)); ring.
Qed.

Lemma sumSquares_nonneg (v : list R) : 0 <= sumSquares v.
Proof.
  induction v as [|x v IH]; [unfold sumSquares; cbn; lra|].
  rewrite sumSquares_cons; pose proof (square_nonneg x); lra.
Qed.

Lemma sumSquares_scale (k : R) (v : list R) :
  sumSquares (map (fun val => val / k) v) = sumSquares v / (k * k).
Proof.
  induction v as [|x v IH]; [unfold sumSquares; cbn; lra|].
  cbn [map]; rewrite !sumSquares_cons, IH; unfold Rdiv; rewrite Rinv_mult; ring.
Qed.

Lemma sum_pairs_fst_sq (a b : list R) :
  length a = length b -> sum_pairs (fun x _ => x * x) a b = sumSquares a.
Proof.
  revert b; induction a as [|x a IH]; intros [|y b] E; cbn in E; try discriminate;
    [reflexivity|].
  rewrite sum_pairs_cons, sumSquares_cons, IH by lia; reflexivity.
Qed.

Lemma sum_pairs_snd_sq (a b : list R) :
  length a = length b -> sum_pairs (fun _ y => y * y) a b = sumSquares b.
Proof.
  revert b; induction a as [|x a IH]; intros [|y b] E; cbn in E; try discriminate;
    [reflexivity|].
  rewrite sum_pairs_cons, sumSquares_cons, IH by lia; reflexivity.
Qed.

(** X4: a vector with a non-zero component normalises to a vector of the
    same length and magnitude [1]. *)
Theorem normalizeVector_unit (v : list R) :
  (exists x, In x v /\ x <> 0) ->
  exists u, normalizeVector v = Some u /\ length u = length v /\ magnitude u = 1.
Proof.
  intros (x & Hx & Hx0).
  assert (Hpos : 0 < sumSquares v).
  { clear -Hx Hx0; induction v as [|y v IH]; [destruct Hx|].
    rewrite sumSquares_cons; pose proof (sumSquares_nonneg v); destruct Hx as [->|Hx].
    - assert (0 < x * x) by (apply Rsqr_pos_lt in Hx0; exact Hx0). lra.
    - pose proof (IH Hx); pose proof (square_nonneg y); lra. }
  unfold normalizeVector.
  destruct v as [|v0 v'] eqn:Ev; [destruct Hx|]. rewrite <- Ev in *.
  assert (Hm : magnitude v <> 0)
    by (unfold magnitude; apply Rgt_not_eq, sqrt_lt_R0; exact Hpos).
  destruct (Req_EM_T (magnitude v) 0) as [H|_]; [contradiction|].
  eexists; split; [reflexivity|]; split; [apply length_map|].
  unfold magnitude at 1; fold (sumSquares (map (fun val => val / magnitude v) v)).
  rewrite sumSquares_scale.
  unfold magnitude; fold (sumSquares v); rewrite sqrt_sqrt by lra.
  unfold Rdiv; rewrite Rinv_r by lra; apply sqrt_1.
Qed.

Lemma normalizeVector_unit_witness :
  (exists x, In x [3; 4] /\ x <> 0) /\
  exists u, normalizeVector [3; 4] = Some u /\ length u = length [3; 4] /\ magnitude u = 1.
Proof.
  assert (H : exists x, In x [3; 4] /\ x <> 0) by (exists 3; split; [left; reflexivity | lra]).
  split; [exact H | apply normalizeVector_unit; exact H].
Defined.

(** X5: for unit vectors of equal length the Euclidean distance is [sqrt
    (2 - 2 c)], [c] the cosine similarity, and lies in [[0,2]]. *)
Theorem unit_vectors_distance (a b : list R) :
  length a = length b -> magnitude a = 1 -> magnitude b = 1 ->
  exists c d, cosineSimilarity a b = Some c /\ euclideanDistance a b = Some d /\
              d = sqrt (2 - 2 * c) /\ 0 <= d <= 2.
Proof.
  intros E Ha Hb.
  assert (Qa : sumSquares a = 1).
  { unfold magnitude in Ha; fold (sumSquares a) in Ha.
    rewrite <- (sqrt_sqrt (sumSquares a)) by apply sumSquares_nonneg; rewrite Ha; ring. }
  assert (Qb : sumSquares b = 1).
  { unfold magnitude in Hb; fold (sumSquares b) in Hb.
    rewrite <- (sqrt_sqrt (sumSquares b)) by apply sumSquares_nonneg; rewrite Hb; ring. }
  pose proof (sum_pairs_cauchy_schwarz a b) as CS; cbn zeta in CS.
  unfold cosineSimilarity, euclideanDistance.
  rewrite (proj2 (Nat.eqb_eq _ _) E); cbn [negb].
  rewrite sum_pairs_sq_diff, (sum_pairs_fst_sq a b E), (sum_pairs_snd_sq a b E) in *.
  rewrite Qa, Qb in *. rewrite sqrt_1.
  destruct (Req_EM_T 1 0) as [H|_]; [lra|].
  set (S := sum_pairs (fun x y => x * y) a b) in *.
  do 2 eexists; split; [reflexivity | split; [reflexivity|]].
  replace (S / (1 * 1)) with S by field.
  replace (1 + 1 - 2 * S) with (2 - 2 * S) by ring.
  split; [reflexivity|]. split; [apply sqrt_pos|].
  assert (-1 <= S).
  { destruct (Rle_lt_dec (-1) S) as [H|H]; [assumption | exfalso].
    assert (0 < (-1 - S) * (1 - S)) by (apply Rmult_lt_0_compat; lra).
    assert (E2 : (-1 - S) * (1 - S) = S * S - 1) by ring. lra. }
  apply (Rle_trans _ (sqrt (2 * 2))); [apply sqrt_le_1_alt; lra | rewrite sqrt_square; lra].
Qed.

Lemma unit_vectors_distance_witness :
  length [0.6; 0.8] = length [1; 0] /\ magnitude [0.6; 0.8] = 1 /\ magnitude [1; 0] = 1 /\
  exists c d, cosineSimilarity [0.6; 0.8] [1; 0] = Some c /\
              euclideanDistance [0.6; 0.8] [1; 0] = Some d /\
              d = sqrt (2 - 2 * c) /\ 0 <= d <= 2.
Proof.
  assert (H1 : magnitude [0.6; 0.8] = 1)
    by (unfold magnitude; cbn; replace (0 + 0.6 * 0.6 + 0.8 * 0.8) with 1 by lra; apply sqrt_1).
  assert (H2 : magnitude [1; 0] = 1)
    by (unfold magnitude; cbn; replace (0 + 1 * 1 + 0 * 0) with 1 by lra; apply sqrt_1).
  refine (conj eq_refl (conj H1 (conj H2 _))).
  apply unit_vectors_distance; [reflexivity | exact H1 | exact H2].
Defined.

(** X6: one stored image whose embedding length differs from the query's
    makes the whole search throw. *)
Theorem search_fails_on_embedding_length_mismatch
    (extract : string -> VisualMetadata) (images : list ImageRecord) (embedding0 : list R)
    (query : option TextContent) (img : ImageRecord) :
  In img images -> length (embedding img) <> length embedding0 ->
  searchImagesByEmbedding extract images embedding0 query = None.
Proof.
  intros Hin Hlen.
  assert (Hc : calculateSimilarities images embedding0 (extract (dataUrl (hd img images))) query = None).
  { generalize (extract (dataUrl (hd img images))); intro qm.
    clear -Hin Hlen; induction images as [|i images IH]; [destruct Hin|].
    cbn [calculateSimilarities].
    destruct Hin as [<-|Hin].
    - unfold scoreImage, cosineSimilarity.
      rewrite (proj2 (Nat.eqb_neq _ _) (not_eq_sym Hlen)); reflexivity.
    - rewrite (IH Hin); destruct (scoreImage _ _ _ _); reflexivity. }
  destruct images as [|i0 rest]; [destruct Hin|].
  unfold searchImagesByEmbedding, searchRanking, queryMetadataOf.
  cbn [hd] in Hc; rewrite Hc; reflexivity.
Qed.

Lemma search_fails_on_embedding_length_mismatch_witness :
  In Sample.other [Sample.stored; Sample.other] /\ length (embedding Sample.other) <> length [1] /\
  searchImagesByEmbedding Sample.extract [Sample.stored; Sample.other] [1] None = None.
Proof.
  assert (Hin : In Sample.other [Sample.stored; Sample.other]) by (right; left; reflexivity).
  assert (Hl : length (embedding Sample.other) <> length [1]) by (cbn; discriminate).
  refine (conj Hin (conj Hl _)).
  exact (search_fails_on_embedding_length_mismatch Sample.extract _ [1] None _ Hin Hl).
Defined.

(** ** Sorting, distribution and gaps *)

Section SortDesc.
Context {A : Type} (key : A -> R).

Lemma insertDesc_perm (x : A) (l : list A) : Permutation (insertDesc key x l) (x :: l).
Proof.
  induction l as [|y l IH]; cbn; [reflexivity|].
  destruct (Rltb (key y) (key x)); [reflexivity|].
  rewrite IH; apply perm_swap.
Qed.

Lemma insertDesc_sorted (x : A) (l : list A) :
  StronglySorted (descBy key) l -> StronglySorted (descBy key) (insertDesc key x l).
Proof.
  induction l as [|y l IH]; intro Hs; cbn.
  - constructor; [constructor | constructor].
  - apply StronglySorted_inv in Hs as [Hl Hy].
    unfold Rltb; destruct (Rlt_dec (key y) (key x)) as [Hlt|Hge].
    + constructor; [constructor; assumption|].
      constructor; [unfold descBy; lra|].
      eapply Forall_impl; [|exact Hy]; unfold descBy; intros z Hz; lra.
    + constructor; [apply IH; exact Hl|].
      apply (Permutation_Forall (Permutation_sym (insertDesc_perm x l))).
      constructor; [unfold descBy; lra | exact Hy].
Qed.

Lemma sortDesc_fold (l acc : list A) :
  StronglySorted (descBy key) acc ->
  StronglySorted (descBy key) (fold_left (fun acc x => insertDesc key x acc) l acc) /\
  Permutation (fold_left (fun acc x => insertDesc key x acc) l acc) (l ++ acc).
Proof.
  revert acc; induction l as [|x l IH]; intros acc Hs; cbn; [split; [exact Hs | reflexivity]|].
  destruct (IH (insertDesc key x acc) (insertDesc_sorted x acc Hs)) as [H1 H2].
  split; [exact H1|].
  eapply perm_trans; [exact H2|].
  eapply perm_trans; [apply Permutation_app_head, insertDesc_perm|].
  apply Permutation_sym, Permutation_middle.
Qed.

Lemma sortDesc_sorted (l : list A) : StronglySorted (descBy key) (sortDesc key l).
Proof. apply (sortDesc_fold l []); constructor. Qed.

Lemma sortDesc_perm (l : list A) : Permutation (sortDesc key l) l.
Proof. unfold sortDesc; rewrite (proj2 (sortDesc_fold l [] (SSorted_nil _))), app_nil_r; reflexivity. Qed.

End SortDesc.

Lemma StronglySorted_filter {A : Type} (Rel : A -> A -> Prop) (f : A -> bool) (l : list A) :
  StronglySorted Rel l -> StronglySorted Rel (filter f l).
Proof.
  induction l as [|x l IH]; intro Hs; cbn; [constructor|].
  apply StronglySorted_inv in Hs as [Hl Hx].
  destruct (f x); [|apply IH; exact Hl].
  constructor; [apply IH; exact Hl|].
  apply Forall_forall; intros y Hy; apply filter_In in Hy as [Hy _].
  exact (proj1 (Forall_forall _ _) Hx y Hy).
Qed.

Lemma StronglySorted_firstn {A : Type} (Rel : A -> A -> Prop) (n : nat) (l : list A) :
  StronglySorted Rel l -> StronglySorted Rel (firstn n l).
Proof.
  revert l; induction n as [|n IH]; intros [|x l] Hs; cbn; try constructor.
  - apply StronglySorted_inv in Hs as [Hl Hx]; apply IH; exact Hl.
  - apply StronglySorted_inv in Hs as [Hl Hx].
    apply Forall_forall; intros y Hy.
    apply (proj1 (Forall_forall _ _) Hx y).
    rewrite <- (firstn_skipn n l); apply in_or_app; left; exact Hy.
Qed.

(** X7: ranking reorders the scored results (a permutation) into
    descending order of similarity. *)
Theorem rankResults_sorted_permutation (results : list Scored) :
  Permutation (fst (rankResults results)) results /\
  Sorted (fun x y => similarity y <= similarity x) (fst (rankResults results)).
Proof.
  cbn [rankResults fst]; split; [apply sortDesc_perm|].
  apply StronglySorted_Sorted, (sortDesc_sorted similarity).
Qed.

(** X8: the results of a search are in descending order of similarity. *)
Theorem search_results_descending (extract : string -> VisualMetadata)
    (images : list ImageRecord) (embedding0 : list R) (query : option TextContent)
    (out : list Scored) :
  searchImagesByEmbedding extract images embedding0 query = Some out ->
  Sorted (fun x y => similarity y <= similarity x) out.
Proof.
  unfold searchImagesByEmbedding.
  destruct images as [|i0 rest]; [intro H; injection H as <-; constructor|].
  unfold searchRanking; destruct (queryMetadataOf _ _) as [qm|]; [|discriminate].
  destruct (calculateSimilarities _ _ _ _) as [results|]; [|discriminate].
  cbn [rankResults]; intro H.
  match type of H with Some ?a = Some out => assert (E : out = a) by congruence end.
  rewrite E; clear H E.
  apply StronglySorted_Sorted, StronglySorted_firstn, StronglySorted_filter,
    (sortDesc_sorted similarity).
Qed.

(** The scores of a record whose embedding is the query vector [[1]] and
    whose characteristics are all false. *)
Lemma metrics_same_unit :
  cosineSimilarity [1] [1] = Some 1 /\ euclideanDistance [1] [1] = Some 0 /\
  manhattanDistance [1] [1] = Some 0.
Proof.
  unfold cosineSimilarity, euclideanDistance, manhattanDistance, sum_pairs; cbn -[sqrt].
  replace (0 + (1 - 1) * (1 - 1)) with 0 by ring.
  replace (0 + 1 * 1) with 1 by ring.
  rewrite sqrt_0, sqrt_1.
  destruct (Req_EM_T 1 0); [lra|].
  repeat split; f_equal; [field | unfold Rabs; destruct (Rcase_abs _); lra].
Qed.

Lemma weights_plain (colorSim : R) :
  getAdaptiveWeights (mkCharacteristics false false false false) false 0 1 1 colorSim
  = if Rltb 0.8 colorSim
    then mkWeights (36/110) (25/110) (15/110) (24/110) (5/110) (5/110)
    else mkWeights (36/106) (25/106) (15/106) (20/106) (5/106) (5/106).
Proof.
  unfold getAdaptiveWeights, rawAdaptiveWeights, adjustForColor, adjustForCosine.
  rewrite (Rltb_true 0.8 1) by lra.
  cbn [adjustForDetailed adjustForColorful adjustForText isTextHeavy isColorful isDetailed orb
       w_cosine w_euclidean w_manhattan w_color w_visualProps w_text baseWeights].
  replace (Rmin 0.4 (0.3 * 1.2)) with (36/100) by (unfold Rmin; destruct (Rle_dec _ _); lra).
  destruct (Rltb 0.8 colorSim);
    cbn [w_cosine w_euclidean w_manhattan w_color w_visualProps w_text totalWeight].
  - replace (Rmin 0.3 (0.2 * 1.2)) with (24/100) by (unfold Rmin; destruct (Rle_dec _ _); lra).
    unfold totalWeight; cbn [w_cosine w_euclidean w_manhattan w_color w_visualProps w_text].
    f_equal; (match goal with |- _ / ?d = _ => replace d with (110/100) by lra end); lra.
  - unfold totalWeight; cbn [w_cosine w_euclidean w_manhattan w_color w_visualProps w_text].
    f_equal; (match goal with |- _ / ?d = _ => replace d with (106/100) by lra end); lra.
Qed.

Lemma score_same_embedding (qm : VisualMetadata) (r : ImageRecord) :
  embedding r = [1] ->
  analyzeImageCharacteristics r qm = mkCharacteristics false false false false ->
  exists s, scoreImage [1] qm None r = Some s /\ image s = r /\
    similarity s =
      (if Rltb 0.8 (colorComponent qm r)
       then (36 + 25 + 15 + 24 * colorComponent qm r
             + 5 * visualPropertiesSimilarity (Some qm) (metadata r)) / 110
       else (36 + 25 + 15 + 20 * colorComponent qm r
             + 5 * visualPropertiesSimilarity (Some qm) (metadata r)) / 106)
      * (if Rltb (colorComponent qm r) 0.3 then 0.9 else 1).
Proof.
  intros He Hc.
  destruct metrics_same_unit as (Hcos & Heuc & Hman).
  unfold scoreImage; rewrite He, Hcos, Heuc, Hman.
  eexists; split; [reflexivity|]; split; [reflexivity|].
  cbn [similarity]. rewrite Hc.
  cbn [textComponent significantText].
  replace (1 - 0 / sqrt 2) with 1 by (unfold Rdiv; ring).
  rewrite weights_plain.
  rewrite (Rltb_false 1 0.4) by lra.
  cbn [andb length INR].
  destruct (Rltb 0.8 (colorComponent qm r)), (Rltb (colorComponent qm r) 0.3);
    cbn [w_cosine w_euclidean w_manhattan w_color w_visualProps w_text];
    unfold Rdiv; rewrite Rmult_0_l; lra.
Qed.

Lemma truthy_pos (x : R) : 0 < x -> truthyR (Some x) = true.
Proof. intro H; unfold truthyR; destruct (Req_EM_T x 0); [lra | reflexivity]. Qed.

Lemma chars_plain (r : ImageRecord) (qm : VisualMetadata) :
  textContent r = None ->
  metadata r = None \/ metadata r = Some Sample.colouredMetadata ->
  analyzeImageCharacteristics r qm = mkCharacteristics false false false false.
Proof.
  intros Ht [Hm|Hm]; unfold analyzeImageCharacteristics; rewrite Ht, Hm; [reflexivity|].
  cbn [metadataField Sample.colouredMetadata colorEntropy contrast edgeDensity flagAbove].
  rewrite !truthy_pos by lra.
  rewrite (Rltb_false 0.7 0.3), (Rltb_false 0.6 0.4), (Rltb_false 0.5 0.2) by lra.
  reflexivity.
Qed.

(** Against the query metadata, the coloured record scores [105/110] and
    the query image's record [88.5/106]. *)
Lemma two_record_scores :
  exists sa sb,
    calculateSimilarities [Sample.queryRecord; Sample.colouredRecord] [1]
      Sample.colouredMetadata None = Some [sb; sa] /\
    image sa = Sample.colouredRecord /\ image sb = Sample.queryRecord /\
    similarity sa = 105/110 /\ similarity sb = 885/1060.
Proof.
  destruct (score_same_embedding Sample.colouredMetadata Sample.colouredRecord eq_refl
              (chars_plain Sample.colouredRecord _ eq_refl (or_intror eq_refl)))
    as (sa & Ha & Hia & Hsa).
  destruct (score_same_embedding Sample.colouredMetadata Sample.queryRecord eq_refl
              (chars_plain Sample.queryRecord _ eq_refl (or_introl eq_refl)))
    as (sb & Hb & Hib & Hsb).
  exists sa, sb; split; [cbn [calculateSimilarities]; rewrite Ha, Hb; reflexivity|].
  split; [exact Hia|]. split; [exact Hib|]. split.
  - rewrite Hsa.
    assert (Hc : colorComponent Sample.colouredMetadata Sample.colouredRecord = 1)
      by (apply colorSimilarity_nonempty; discriminate).
    assert (Hv : visualPropertiesSimilarity (Some Sample.colouredMetadata)
                   (metadata Sample.colouredRecord) = 1).
    { cbn [visualPropertiesSimilarity metadata Sample.colouredRecord Sample.record
           propertySimilarity Sample.colouredMetadata brightness contrast colorEntropy
           edgeDensity].
      rewrite !truthy_pos by lra. cbn [andb]. rewrite !Rminus_diag, Rabs_R0. lra. }
    rewrite Hc, Hv, (Rltb_true 0.8 1), (Rltb_false 1 0.3) by lra. lra.
  - rewrite Hsb.
    change (colorComponent Sample.colouredMetadata Sample.queryRecord) with 0.5.
    change (visualPropertiesSimilarity (Some Sample.colouredMetadata)
              (metadata Sample.queryRecord)) with 0.5.
    rewrite (Rltb_false 0.8 0.5), (Rltb_false 0.5 0.3) by lra. lra.
Qed.

(** The search over the two records returns both, the coloured record
    first: the ranking reverses the store order. *)
Lemma search_two_records :
  exists sa sb,
    searchImagesByEmbedding Sample.extract [Sample.queryRecord; Sample.colouredRecord] [1] None
    = Some [sa; sb] /\
    image sa = Sample.colouredRecord /\ image sb = Sample.queryRecord.
Proof.
  destruct two_record_scores as (sa & sb & Hs & Hia & Hib & Hsa & Hsb).
  exists sa, sb; split; [|split; assumption].
  unfold searchImagesByEmbedding, searchRanking, queryMetadataOf.
  change (Sample.extract (dataUrl Sample.queryRecord)) with Sample.colouredMetadata.
  rewrite Hs. unfold rankResults, sortDesc; cbn [fold_left insertDesc].
  rewrite (Rltb_true (similarity sb) (similarity sa)) by (rewrite Hsa, Hsb; lra).
  assert (Ht : forall st, determineOptimalThreshold [sa; sb] st = 0.45).
  { intro st; unfold determineOptimalThreshold; cbn [length Nat.leb].
    rewrite Rmax_right, Rmin_left by lra; reflexivity. }
  cbn zeta. rewrite Ht. cbn [filter].
  rewrite (Rltb_true 0.45 (similarity sa)), (Rltb_true 0.45 (similarity sb))
    by (rewrite ?Hsa, ?Hsb; lra).
  reflexivity.
Qed.

Lemma search_results_descending_witness :
  exists out,
    searchImagesByEmbedding Sample.extract [Sample.queryRecord; Sample.colouredRecord] [1] None
    = Some out /\
    map (fun r => id (image r)) out = ["a"; "b"]%string /\
    Sorted (fun x y => similarity y <= similarity x) out.
Proof.
  destruct search_two_records as (sa & sb & E & Ha & Hb).
  exists [sa; sb]; split; [exact E|].
  split; [cbn [map]; rewrite Ha, Hb; reflexivity|].
  exact (search_results_descending Sample.extract _ _ None [sa; sb] E).
Defined.

Lemma Rltb_iff (a b : R) : Rltb a b = true <-> a < b.
Proof. unfold Rltb; destruct (Rlt_dec a b); split; intro; congruence || contradiction. Qed.

Lemma StronglySorted_nth {A : Type} (Rel : A -> A -> Prop) (l : list A) (d : A) (i j : nat) :
  StronglySorted Rel l -> (i < j < length l)%nat -> Rel (nth i l d) (nth j l d).
Proof.
  revert i j; induction l as [|x l IH]; intros i j Hs Hij; cbn in Hij; [lia|].
  apply StronglySorted_inv in Hs as [Hl Hx].
  destruct i as [|i'], j as [|j']; try lia; cbn [nth].
  - apply (proj1 (Forall_forall _ _) Hx), nth_In; lia.
  - apply IH; [exact Hl | lia].
Qed.

Lemma sorted_nth_le (l : list R) (i j : nat) :
  StronglySorted (descBy (fun x => x)) l -> (i <= j < length l)%nat -> nth j l 0 <= nth i l 0.
Proof.
  intros Hs Hij; destruct (Nat.eq_dec i j) as [->|Hne]; [lra|].
  apply (StronglySorted_nth _ l 0 i j Hs); lia.
Qed.

(** X9: for a non-empty score list the three quartiles are scores of the
    list, in descending order, and the median is the middle one. *)
Theorem analyzeDistribution_quartiles (scores : list R) :
  scores <> [] ->
  let q := quartiles (analyzeDistribution scores) in
  length q = 3%nat /\ nth 2 q 0 <= nth 1 q 0 <= nth 0 q 0 /\
  median (analyzeDistribution scores) = nth 1 q 0 /\
  (forall k, (k < 3)%nat -> In (nth k q 0) scores).
Proof.
  intro Hne; destruct scores as [|s0 rest]; [contradiction|].
  set (l := s0 :: rest).
  assert (Hq : quartiles (analyzeDistribution l) =
                 [nth (length l / 4) (sortDesc (fun x => x) l) 0;
                  nth (length l / 2) (sortDesc (fun x => x) l) 0;
                  nth (3 * length l / 4) (sortDesc (fun x => x) l) 0]) by reflexivity.
  assert (Hm : median (analyzeDistribution l) = nth (length l / 2) (sortDesc (fun x => x) l) 0)
    by reflexivity.
  cbn zeta; rewrite Hq, Hm.
  pose proof (sortDesc_sorted (fun x : R => x) l) as Hs.
  pose proof (Permutation_length (sortDesc_perm (fun x : R => x) l)) as Hlen.
  assert (Hn : (1 <= length l)%nat) by (cbn; lia).
  set (n := length l) in *.
  pose proof (Nat.div_mod_eq (3 * n) 4); pose proof (Nat.mod_upper_bound (3 * n) 4).
  pose proof (Nat.div_mod_eq n 4); pose proof (Nat.mod_upper_bound n 4).
  pose proof (Nat.div_mod_eq n 2); pose proof (Nat.mod_upper_bound n 2).
  assert (H34 : (3 * n / 4 < n)%nat) by lia.
  assert (H12 : (n / 4 <= n / 2)%nat) by lia.
  assert (H23 : (n / 2 <= 3 * n / 4)%nat) by lia.
  split; [reflexivity|]. split; [|split; [reflexivity|]].
  - cbn [nth]; split; apply sorted_nth_le; try assumption; lia.
  - intros k Hk.
    assert (Hin : forall i, (i < n)%nat -> In (nth i (sortDesc (fun x => x) l) 0) l).
    { intros i Hi; apply (Permutation_in _ (sortDesc_perm (fun x : R => x) l)), nth_In; lia. }
    destruct k as [|[|[|k]]]; cbn [nth]; try lia; apply Hin; lia.
Qed.

Lemma analyzeDistribution_quartiles_witness :
  [0.3; 0.9; 0.5; 0.7] <> [] /\
  let q := quartiles (analyzeDistribution [0.3; 0.9; 0.5; 0.7]) in
  length q = 3%nat /\ nth 2 q 0 <= nth 1 q 0 <= nth 0 q 0 /\
  median (analyzeDistribution [0.3; 0.9; 0.5; 0.7]) = nth 1 q 0 /\
  (forall k, (k < 3)%nat -> In (nth k q 0) [0.3; 0.9; 0.5; 0.7]).
Proof. split; [discriminate | apply analyzeDistribution_quartiles; discriminate]. Defined.

Lemma consecutiveGaps_nonneg (l : list R) :
  StronglySorted (descBy (fun x => x)) l -> Forall (fun d => 0 <= d) (consecutiveGaps l).
Proof.
  induction l as [|x l IH]; intro Hs; [constructor|].
  destruct l as [|y l']; [constructor|].
  apply StronglySorted_inv in Hs as [Hl Hx].
  change (consecutiveGaps (x :: y :: l')) with ((x - y) :: consecutiveGaps (y :: l')).
  constructor; [|apply IH; exact Hl].
  apply Forall_inv in Hx; unfold descBy in Hx; lra.
Qed.

Lemma consecutiveGaps_length (l : list R) :
  length (consecutiveGaps l) = (length l - 1)%nat.
Proof.
  induction l as [|x l IH]; [reflexivity|].
  destruct l as [|y l']; [reflexivity|].
  change (consecutiveGaps (x :: y :: l')) with ((x - y) :: consecutiveGaps (y :: l')).
  cbn [length] in *; rewrite IH; lia.
Qed.

(** X10: the reported gaps are at most three non-negative numbers; the
    first of them is at least every gap between consecutive sorted scores
    and, when there are two scores or more, is itself one of those gaps:
    it is the largest gap. *)
Theorem analyzeDistribution_gaps (scores : list R) :
  let g := gaps (analyzeDistribution scores) in
  (length g <= 3)%nat /\ (forall d, In d g -> 0 <= d) /\
  (forall d, In d (consecutiveGaps (sortDesc (fun x => x) scores)) -> d <= nth 0 g 0) /\
  ((2 <= length scores)%nat -> In (nth 0 g 0) (consecutiveGaps (sortDesc (fun x => x) scores))).
Proof.
  cbn zeta.
  destruct scores as [|s0 rest].
  { cbn; split; [lia | split; [intros d [] | split; [intros d [] | intro; lia]]]. }
  set (l := s0 :: rest).
  set (G := consecutiveGaps (sortDesc (fun x => x) l)).
  assert (Hg : gaps (analyzeDistribution l) = firstn 3 (sortDesc (fun x => x) G)) by reflexivity.
  rewrite Hg.
  pose proof (sortDesc_sorted (fun x : R => x) G) as Hs.
  pose proof (sortDesc_perm (fun x : R => x) G) as Hp.
  pose proof (consecutiveGaps_nonneg _ (sortDesc_sorted (fun x : R => x) l)) as Hnn; fold G in Hnn.
  split; [rewrite length_firstn; lia|]. split; [|split].
  - intros d Hd.
    assert (Hd' : In d (sortDesc (fun x => x) G))
      by (rewrite <- (firstn_skipn 3 (sortDesc (fun x => x) G)); apply in_or_app; left; exact Hd).
    apply (Permutation_in _ Hp) in Hd'.
    exact (proj1 (Forall_forall _ _) Hnn d Hd').
  - intros d Hd.
    apply (Permutation_in _ (Permutation_sym Hp)) in Hd.
    destruct (sortDesc (fun x => x) G) as [|h t] eqn:E; [destruct Hd|].
    cbn [firstn nth]. destruct Hd as [<-|Hd]; [lra|].
    apply StronglySorted_inv in Hs as [_ Hh].
    exact (proj1 (Forall_forall _ _) Hh d Hd).
  - intro H2.
    assert (HG : (1 <= length G)%nat).
    { unfold G; rewrite consecutiveGaps_length,
        (Permutation_length (sortDesc_perm (fun x : R => x) l)); lia. }
    destruct (sortDesc (fun x => x) G) as [|h t] eqn:E.
    + apply Permutation_length in Hp; cbn [length] in Hp; lia.
    + cbn [firstn nth]. apply (Permutation_in _ Hp); left; reflexivity.
Qed.

Lemma analyzeDistribution_gaps_witness :
  Nat.le 2 (length [0.1; 0.9; 0.4; 0.5]) /\
  In (nth 0 (gaps (analyzeDistribution [0.1; 0.9; 0.4; 0.5])) 0)
     (consecutiveGaps (sortDesc (fun x => x) [0.1; 0.9; 0.4; 0.5])).
Proof.
  assert (H : Nat.le 2 (length [0.1; 0.9; 0.4; 0.5])) by (cbn; lia).
  split; [exact H|].
  exact (proj2 (proj2 (proj2 (analyzeDistribution_gaps [0.1; 0.9; 0.4; 0.5]))) H).
Defined.

Lemma findGapIndexFrom_spec (l : list R) (t : R) (k : Z) :
  (findGapIndexFrom l t k = (-1)%Z /\
   forall i, (S i < length l)%nat -> ~ Rabs (nth i l 0 - nth (S i) l 0 - t) < 0.001)
  \/
  (exists i, findGapIndexFrom l t k = (k + Z.of_nat i)%Z /\ (S i < length l)%nat /\
     Rabs (nth i l 0 - nth (S i) l 0 - t) < 0.001 /\
     forall j, (j < i)%nat -> ~ Rabs (nth j l 0 - nth (S j) l 0 - t) < 0.001).
Proof.
  revert k; induction l as [|x l IH]; intro k.
  { left; split; [reflexivity | cbn; lia]. }
  destruct l as [|y l'].
  { left; split; [reflexivity | cbn; lia]. }
  change (findGapIndexFrom (x :: y :: l') t k) with
    (if Rltb (Rabs (x - y - t)) 0.001 then k
     else findGapIndexFrom (y :: l') t (k + 1)).
  destruct (Rltb (Rabs (x - y - t)) 0.001) eqn:Eb.
  - right; exists 0%nat; apply Rltb_iff in Eb.
    split; [lia|]. split; [cbn; lia|]. split; [exact Eb | intros j Hj; lia].
  - assert (Hx : ~ Rabs (x - y - t) < 0.001) by (intro H; apply Rltb_iff in H; congruence).
    destruct (IH (k + 1)%Z) as [[E Hn]|(i & E & Hi & Hm & Hb)].
    + left; split; [exact E|].
      intros [|i] Hi; [exact Hx|]. apply Hn; cbn in *; lia.
    + right; exists (S i); split; [rewrite E; lia|].
      split; [cbn in *; lia|]. split; [exact Hm|].
      intros [|j] Hj; [exact Hx|]. apply Hb; lia.
Qed.

(** X11: [findGapIndex] returns the first index whose gap to the next
    score is within [0.001] of the target, or [-1] when there is none. *)
Theorem findGapIndex_spec (scores : list R) (targetGap : R) :
  (findGapIndex scores targetGap = (-1)%Z /\
   forall i, (S i < length scores)%nat ->
     ~ Rabs (nth i scores 0 - nth (S i) scores 0 - targetGap) < 0.001)
  \/
  (exists i, findGapIndex scores targetGap = Z.of_nat i /\ (S i < length scores)%nat /\
     Rabs (nth i scores 0 - nth (S i) scores 0 - targetGap) < 0.001 /\
     forall j, (j < i)%nat ->
       ~ Rabs (nth j scores 0 - nth (S j) scores 0 - targetGap) < 0.001).
Proof.
  destruct (findGapIndexFrom_spec scores targetGap 0) as [H|(i & E & H)]; [left; exact H|].
  right; exists i; split; [unfold findGapIndex; rewrite E; lia | exact H].
Qed.

(** ** Text similarity engine *)

Import Text.

Lemma wordImportance_bounds (word : string) :
  0 <= calculateWordImportance word <= 1.2.
Proof.
  unfold calculateWordImportance.
  assert (HL : 0 <= Rmin 1 (INR (String.length word) / 5) <= 1).
  { pose proof (pos_INR (String.length word)).
    assert (0 <= INR (String.length word) / 5) by (unfold Rdiv; apply Rmult_le_pos; lra).
    unfold Rmin; destruct (Rle_dec _ _); lra. }
  destruct (existsb _ stopWords), (_ || _)%bool; nra.
Qed.

(** [last] of a non-empty list is its element at [length - 1]. *)
Lemma last_nth_nat (l : list nat) (d : nat) : last l d = nth (length l - 1) l d.
Proof.
  induction l as [|x l IH]; [reflexivity|].
  destruct l as [|y l']; [reflexivity|].
  change (last (x :: y :: l') d) with (last (y :: l') d); rewrite IH.
  cbn [length]; replace (S (S (length l')) - 1)%nat with (S (length l')) by lia.
  cbn [nth]; replace (S (length l') - 1)%nat with (length l') by lia; reflexivity.
Qed.

Lemma next_row_length (ca : ascii) (bs : list ascii) (diag : nat) (up_row : list nat) (left : nat) :
  length (next_row ca bs diag up_row left) = Nat.min (length bs) (length up_row).
Proof.
  revert diag up_row left; induction bs as [|cb bs IH]; intros diag [|up up_row] left;
    cbn; try reflexivity.
  rewrite IH; reflexivity.
Qed.

Lemma next_row_le (ca : ascii) (bs : list ascii) (diag : nat) (up_row : list nat) (left : nat) (k : nat) :
  (k < length (next_row ca bs diag up_row left))%nat ->
  (nth k (next_row ca bs diag up_row left) 0
   <= nth k (diag :: up_row) 0 + (if Ascii.eqb ca (nth k bs " "%char) then 0 else 1))%nat.
Proof.
  revert diag up_row left k; induction bs as [|cb bs IH]; intros diag [|up up_row] left k Hk;
    cbn in Hk; try lia.
  destruct k as [|k]; cbn [nth next_row].
  - destruct (Ascii.eqb ca cb); lia.
  - apply IH; lia.
Qed.

Lemma lev_rows_length (as_ bs : list ascii) (row : list nat) (i : nat) :
  length row = S (length bs) -> length (lev_rows as_ bs row i) = S (length bs).
Proof.
  revert row i; induction as_ as [|ca as' IH]; intros row i Hr; cbn [lev_rows]; [exact Hr|].
  apply IH; cbn [length]; rewrite next_row_length.
  destruct row as [|r row']; cbn in *; lia.
Qed.

Lemma lev_rows_bound (as_ bs : list ascii) (row : list nat) (i : nat) :
  length row = S (length bs) ->
  (forall j, (j < S (length bs))%nat -> (nth j row 0 <= Nat.max i j)%nat) ->
  forall j, (j < S (length bs))%nat ->
    (nth j (lev_rows as_ bs row i) 0 <= Nat.max (i + length as_) j)%nat.
Proof.
  revert row i; induction as_ as [|ca as' IH]; intros row i Hr Hb; cbn [lev_rows length].
  { intros j Hj; rewrite Nat.add_0_r; apply Hb; exact Hj. }
  intros j0 Hj0; replace (i + S (length as'))%nat with (S i + length as')%nat by lia.
  apply IH; [| |exact Hj0].
  - cbn [length]; rewrite next_row_length; destruct row as [|r row']; cbn in *; lia.
  - intros [|j] Hj; cbn [nth]; [lia|].
    destruct row as [|r row']; cbn in Hr; [lia|].
    assert (Hl : (j < length (next_row ca bs (hd 0%nat (r :: row')) (tl (r :: row')) (S i)))%nat)
      by (rewrite next_row_length; cbn; lia).
    pose proof (next_row_le ca bs _ _ (S i) j Hl) as H.
    cbn [hd tl] in H. change (nth j (r :: row') 0%nat) with (nth j (r :: row') 0%nat) in H.
    assert (Hj' : (nth j (r :: row') 0 <= Nat.max i j)%nat) by (apply Hb; lia).
    cbn [hd tl].
    match type of H with context [if ?c then _ else _] => destruct c end; lia.
Qed.

Lemma lev_rows_diag (as_ bs : list ascii) (row : list nat) (i : nat) :
  length row = S (length bs) ->
  (i + length as_ = length bs)%nat ->
  (forall m, (m < length as_)%nat -> nth m as_ " "%char = nth (i + m) bs " "%char) ->
  nth i row 0%nat = 0%nat ->
  nth (length bs) (lev_rows as_ bs row i) 0%nat = 0%nat.
Proof.
  revert row i; induction as_ as [|ca as' IH]; intros row i Hr Hl Hm Hd; cbn [lev_rows].
  { cbn in Hl; rewrite Nat.add_0_r in Hl; subst i; exact Hd. }
  cbn [length] in Hl.
  apply IH.
  - cbn [length]; rewrite next_row_length; destruct row as [|r row']; cbn in *; lia.
  - lia.
  - intros m Hm'; pose proof (Hm (S m) ltac:(cbn; lia)) as Hs; cbn [nth] in Hs.
    rewrite Hs; f_equal; lia.
  - cbn [nth].
    destruct row as [|r row']; cbn in Hr; [lia|].
    assert (Hl' : (i < length (next_row ca bs (hd 0%nat (r :: row')) (tl (r :: row')) (S i)))%nat)
      by (rewrite next_row_length; cbn; lia).
    pose proof (next_row_le ca bs _ _ (S i) i Hl') as H.
    cbn [hd tl] in H.
    specialize (Hm 0%nat ltac:(cbn; lia)); cbn [nth] in Hm; rewrite Nat.add_0_r in Hm.
    rewrite <- Hm, Ascii.eqb_refl, Hd in H; cbn [hd tl]; lia.
Qed.

Lemma length_list_ascii_of_string (s : string) :
  length (list_ascii_of_string s) = String.length s.
Proof. induction s as [|c s IH]; cbn; [reflexivity | rewrite IH; reflexivity]. Qed.

Lemma seq_last (n : nat) : last (seq 0 (S n)) 0%nat = n.
Proof. rewrite seq_S, last_last; reflexivity. Qed.

Lemma seq_nth_le (n j : nat) : (j < S n)%nat -> (nth j (seq 0 (S n)) 0 <= Nat.max 0 j)%nat.
Proof. intro Hj; rewrite seq_nth by exact Hj; lia. Qed.

(** X13: the edit distance is at most the longer length, is [0] from a
    string to itself, and is the length of the other string when one
    string is empty. *)
Theorem levenshteinDistance_bounds (a b : string) :
  (levenshteinDistance a b <= Nat.max (String.length a) (String.length b))%nat /\
  levenshteinDistance a a = 0%nat /\
  levenshteinDistance a "" = String.length a /\
  levenshteinDistance "" b = String.length b.
Proof.
  unfold levenshteinDistance.
  split; [|split; [|split]].
  - set (bs := list_ascii_of_string b).
    set (as_ := list_ascii_of_string a).
    assert (Hr : length (seq 0 (length bs + 1)) = S (length bs))
      by (rewrite length_seq; lia).
    rewrite last_nth_nat, lev_rows_length by exact Hr.
    replace (S (length bs) - 1)%nat with (length bs) by lia.
    replace (length bs + 1)%nat with (S (length bs)) in * by lia.
    assert (Hb := lev_rows_bound as_ bs (seq 0 (S (length bs))) 0 Hr
                    (fun j Hj => seq_nth_le (length bs) j Hj) (length bs) ltac:(lia)).
    rewrite Nat.add_0_l in Hb; unfold as_, bs in *.
    rewrite !length_list_ascii_of_string in *; exact Hb.
  - set (as_ := list_ascii_of_string a).
    assert (Hr : length (seq 0 (length as_ + 1)) = S (length as_))
      by (rewrite length_seq; lia).
    rewrite last_nth_nat, lev_rows_length by exact Hr.
    replace (S (length as_) - 1)%nat with (length as_) by lia.
    apply lev_rows_diag; [exact Hr | lia | intros m _; reflexivity |].
    rewrite Nat.add_1_r; reflexivity.
  - cbn [length list_ascii_of_string seq Nat.add].
    assert (H : forall as_ i, lev_rows as_ [] [i] i = [(i + length as_)%nat]).
    { induction as_ as [|ca as' IH]; intro i; cbn [lev_rows length].
      - rewrite Nat.add_0_r; reflexivity.
      - cbn [hd tl next_row]; rewrite IH; f_equal; lia. }
    rewrite H, length_list_ascii_of_string; reflexivity.
  - cbn [lev_rows list_ascii_of_string].
    replace (length (list_ascii_of_string b) + 1)%nat with (S (length (list_ascii_of_string b)))
      by lia.
    rewrite seq_last, length_list_ascii_of_string; reflexivity.
Qed.

Lemma wm_get_In (m : WordMap) (w : string) (v : R * nat) :
  wm_get m w = Some v -> In (w, v) m.
Proof.
  induction m as [|[k v'] m IH]; cbn; [discriminate|].
  destruct (String.eqb_spec k w) as [->|_]; intro H; [injection H as ->; left; reflexivity|].
  right; apply IH; exact H.
Qed.

Lemma wm_update_Forall (m : WordMap) (w : string) (v : R * nat) :
  Forall confInUnit m -> 0 <= fst v <= 1 -> Forall confInUnit (wm_update m w v).
Proof.
  induction m as [|[k v'] m IH]; intros Hm Hv; cbn; [constructor|].
  apply Forall_cons_iff in Hm as [Hk Hm].
  destruct (String.eqb k w); constructor; try assumption; apply IH; assumption.
Qed.

Lemma addWord_Forall (m : WordMap) (w : OCRWord) :
  Forall confInUnit m -> 0 <= word_confidence w <= 1 -> Forall confInUnit (addWord m w).
Proof.
  intros Hm Hw; unfold addWord.
  destruct (String.length (word_text w) <? 2)%nat; [exact Hm|].
  destruct (wm_get m (word_text w)) as [[conf count]|] eqn:E.
  - apply wm_update_Forall; [exact Hm|].
    apply wm_get_In in E.
    pose proof (proj1 (Forall_forall _ _) Hm _ E) as Hc; unfold confInUnit in Hc; cbn in Hc |- *.
    unfold Rmax; destruct (Rle_dec _ _); lra.
  - apply Forall_app; split; [exact Hm|]. constructor; [exact Hw | constructor].
Qed.

Lemma buildWordMap_Forall (ws : list OCRWord) :
  Forall (fun w => 0 <= word_confidence w <= 1) ws -> Forall confInUnit (buildWordMap ws).
Proof.
  unfold buildWordMap.
  assert (H : forall m, Forall confInUnit m ->
             Forall (fun w => 0 <= word_confidence w <= 1) ws ->
             Forall confInUnit (fold_left addWord ws m)).
  { induction ws as [|w ws IH]; intros m Hm Hws; cbn; [exact Hm|].
    apply Forall_cons_iff in Hws as [Hw Hws].
    apply IH; [apply addWord_Forall; assumption | exact Hws]. }
  intro Hws; apply H; [constructor | exact Hws].
Qed.

Lemma intersection_le_unionA (mapA mapB : WordMap) (acc1 acc2 : R) :
  Forall confInUnit mapA -> Forall confInUnit mapB -> 0 <= acc1 <= acc2 ->
  0 <= fold_left
         (fun acc entryA =>
            let '(word, infoA) := entryA in
            match wm_get mapB word with
            | Some infoB =>
                acc + fst infoA * fst infoB * INR (Nat.min (snd infoA) (snd infoB))
                      * calculateWordImportance word
            | None => acc
            end)
         mapA acc1
  <= fold_left
       (fun acc entryA =>
          let '(word, infoA) := entryA in
          acc + fst infoA * INR (snd infoA) * calculateWordImportance word)
       mapA acc2.
Proof.
  intros HA HB; revert acc1 acc2; induction mapA as [|[w [c n]] mapA IH]; intros acc1 acc2 Hacc;
    cbn [fold_left]; [exact Hacc|].
  apply Forall_cons_iff in HA as [Hc HA]; unfold confInUnit in Hc; cbn in Hc.
  pose proof (wordImportance_bounds w) as Hi.
  pose proof (pos_INR n) as Hn.
  assert (Hcn : 0 <= c * INR n * calculateWordImportance w)
    by (apply Rmult_le_pos; [apply Rmult_le_pos|]; lra).
  apply IH; [exact HA|].
  destruct (wm_get mapB w) as [[cb nb]|] eqn:E; cbn [fst snd]; [|lra].
  apply wm_get_In in E.
  pose proof (proj1 (Forall_forall _ _) HB _ E) as Hb; unfold confInUnit in Hb; cbn in Hb.
  pose proof (le_INR _ _ (Nat.le_min_l n nb)) as Hm.
  pose proof (pos_INR (Nat.min n nb)) as Hm0.
  set (m := INR (Nat.min n nb)) in *.
  set (i := calculateWordImportance w) in *.
  assert (H1 : 0 <= c * cb * m * i)
    by (apply Rmult_le_pos; [apply Rmult_le_pos; [apply Rmult_le_pos|]|]; lra).
  assert (H2 : c * cb * m * i <= c * INR n * i).
  { assert (c * cb <= c) by nra.
    assert (c * cb * m <= c * INR n).
    { apply (Rle_trans _ (c * m)); [apply Rmult_le_compat_r; lra|].
      apply Rmult_le_compat_l; lra. }
    apply Rmult_le_compat_r; lra. }
  lra.
Qed.

Lemma unionB_ge (mapA mapB : WordMap) (acc : R) :
  Forall confInUnit mapB ->
  acc <= fold_left
           (fun acc entryB =>
              let '(word, infoB) := entryB in
              if wm_has mapA word then acc
              else acc + fst infoB * INR (snd infoB) * calculateWordImportance word)
           mapB acc.
Proof.
  revert acc; induction mapB as [|[w [c n]] mapB IH]; intros acc HB; cbn [fold_left]; [lra|].
  apply Forall_cons_iff in HB as [Hc HB]; unfold confInUnit in Hc; cbn in Hc.
  pose proof (wordImportance_bounds w); pose proof (pos_INR n).
  destruct (wm_has mapA w); [apply IH; exact HB|].
  eapply Rle_trans; [|apply IH; exact HB]; cbn [fst snd].
  assert (0 <= c * INR n * calculateWordImportance w)
    by (apply Rmult_le_pos; [apply Rmult_le_pos|]; lra).
  lra.
Qed.

Lemma weightedJaccard_bounds (mapA mapB : WordMap) :
  Forall confInUnit mapA -> Forall confInUnit mapB ->
  0 <= weightedJaccard mapA mapB <= 1.
Proof.
  intros HA HB; unfold weightedJaccard, weightedUnion, weightedIntersection.
  pose proof (intersection_le_unionA mapA mapB 0 0 HA HB ltac:(lra)) as [HI HIU].
  match type of HIU with _ <= ?ua =>
    pose proof (unionB_ge mapA mapB ua HB) end.
  match goal with |- context [Rltb 0 ?u] => set (U := u) in * end.
  match goal with |- context [?i / U] => set (I := i) in * end.
  unfold Rltb; destruct (Rlt_dec 0 U); [|lra].
  split.
  - unfold Rdiv; apply Rmult_le_pos; [lra | left; apply Rinv_0_lt_compat; lra].
  - unfold Rdiv; apply (Rmult_le_reg_r U); [lra|].
    rewrite Rmult_assoc, Rinv_l by lra; lra.
Qed.

Lemma phraseStep_nonneg (wordsA wordsB : list string) (st : nat * nat * R) (n : nat) :
  0 <= snd st -> 0 <= snd (phraseStep wordsA wordsB st n).
Proof.
  unfold phraseStep; generalize (phrasesOf wordsB n) as ps.
  intro ps; revert st; induction ps as [|p ps IH]; intros [[t m] w] Hw; cbn [fold_left]; [exact Hw|].
  apply IH; cbn in Hw |- *.
  destruct (existsb _ _); cbn; [|exact Hw].
  pose proof (pos_INR n); nra.
Qed.

Lemma phraseMatches_bounds (textA textB : string) :
  0 <= calculatePhraseMatches textA textB <= 1.
Proof.
  unfold calculatePhraseMatches.
  destruct (negb _); [lra|].
  destruct (_ || _)%bool; [lra|].
  match goal with |- context [fold_left ?f ?ks ?s] =>
    assert (Hf : forall l st, 0 <= snd st -> 0 <= snd (fold_left f l st));
    [|pose proof (Hf ks s ltac:(cbn; lra)) as H; destruct (fold_left f ks s) as [[t m] w]] end.
  { intro l0; induction l0 as [|k l0 IH]; intros st Hst; cbn [fold_left]; [exact Hst|].
    apply IH, phraseStep_nonneg, Hst. }
  cbn in H.
  assert (H0 : 0 <= (if (0 <? t)%nat then w + INR m * 0.1 else 0))
    by (destruct (0 <? t)%nat; [pose proof (pos_INR m); lra | lra]).
  unfold Rmin; destruct (Rle_dec _ _); lra.
Qed.

Lemma fuzzyInner_nonneg (wordA : string) (infoA : R * nat) (st : R * list string)
    (entryB : string * (R * nat)) :
  0 <= fst infoA -> 0 <= fst (snd entryB) -> 0 <= fst st ->
  0 <= fst (fuzzyInner wordA infoA st entryB).
Proof.
  destruct st as [score processed], entryB as [wordB infoB]; cbn [fst snd]; intros Ha Hb Hs.
  unfold fuzzyInner.
  destruct (String.length wordB <? 4)%nat; [exact Hs|].
  destruct (String.eqb wordA wordB); [exact Hs|].
  destruct (existsb _ _); [exact Hs|].
  match goal with |- context [Rltb 0.75 ?s] => destruct (Rltb 0.75 s) eqn:E end;
    cbn [fst]; [|exact Hs].
  unfold Rltb in E; destruct (Rlt_dec _ _) as [Hlt|]; [|discriminate].
  pose proof (wordImportance_bounds wordA).
  match goal with |- 0 <= score + ?s * fst infoA * fst infoB * ?i =>
    assert (0 <= s * fst infoA * fst infoB * i)
      by (apply Rmult_le_pos; [apply Rmult_le_pos; [apply Rmult_le_pos|]|]; lra) end.
  lra.
Qed.

Lemma fuzzyMatches_bounds (mapA mapB : WordMap) :
  Forall (fun e => 0 <= fst (snd e)) mapA -> Forall (fun e => 0 <= fst (snd e)) mapB ->
  0 <= calculateFuzzyMatches mapA mapB <= 1.
Proof.
  intros HA HB; unfold calculateFuzzyMatches.
  match goal with |- context [fold_left ?f mapA ?s] =>
    assert (Hf : forall st, 0 <= fst st -> 0 <= fst (fold_left f mapA st));
    [|pose proof (Hf s ltac:(cbn; lra)) as H; destruct (fold_left f mapA s) as [score p]] end.
  { clear -HA HB; induction mapA as [|[wA iA] mapA IH]; intros st Hst; cbn [fold_left]; [exact Hst|].
    apply Forall_cons_iff in HA as [Ha HA]; cbn in Ha.
    apply IH; [exact HA|].
    destruct (String.length wA <? 4)%nat; [exact Hst|].
    clear -Ha HB Hst; revert st Hst; induction mapB as [|eB mapB IHB]; intros st Hst;
      cbn [fold_left]; [exact Hst|].
    apply Forall_cons_iff in HB as [Hb HB].
    apply IHB; [exact HB|]. apply fuzzyInner_nonneg; assumption. }
  cbn in H.
  assert (Hm : 1 <= Rmax 1 (INR (length mapA))) by apply Rmax_l.
  assert (0 <= score / Rmax 1 (INR (length mapA))).
  { unfold Rdiv; apply Rmult_le_pos; [lra | left; apply Rinv_0_lt_compat; lra]. }
  unfold Rmin; destruct (Rle_dec _ _); lra.
Qed.

(** X17: with word confidences in [[0,1]] on both sides, the text
    similarity lies in [[0,1]]. *)
Theorem calculateTextSimilarity_range (textA textB : TextContent) :
  Forall (fun w => 0 <= word_confidence w <= 1) (words textA) ->
  Forall (fun w => 0 <= word_confidence w <= 1) (words textB) ->
  0 <= calculateTextSimilarity textA textB <= 1.
Proof.
  intros HA HB; unfold calculateTextSimilarity.
  destruct (negb _); [lra|].
  pose proof (buildWordMap_Forall _ HA) as MA.
  pose proof (buildWordMap_Forall _ HB) as MB.
  pose proof (weightedJaccard_bounds _ _ MA MB).
  pose proof (phraseMatches_bounds (text textA) (text textB)).
  assert (Hw : forall m, Forall confInUnit m -> Forall (fun e => 0 <= fst (snd e)) m)
    by (intros m Hm; eapply Forall_impl; [|exact Hm]; unfold confInUnit; intros e He; lra).
  pose proof (fuzzyMatches_bounds _ _ (Hw _ MA) (Hw _ MB)).
  lra.
Qed.

Lemma calculateTextSimilarity_range_witness :
  Forall (fun w => 0 <= word_confidence w <= 1) (words (mkTextContent "hello world" 0.9 Sample.helloWorldWords)) /\
  0 <= calculateTextSimilarity (mkTextContent "hello world" 0.9 Sample.helloWorldWords)
         (mkTextContent "hello world" 0.9 Sample.helloWorldWords) <= 1.
Proof.
  assert (H : Forall (fun w => 0 <= word_confidence w <= 1)
                (words (mkTextContent "hello world" 0.9 Sample.helloWorldWords)))
    by (repeat constructor; cbn; lra).
  split; [exact H | apply calculateTextSimilarity_range; exact H].
Defined.

(** ** Pixel analysis and text extraction *)

Lemma stepsFrom_length (s k i fuel : nat) :
  (0 < s)%nat -> (k <= fuel)%nat ->
  length (stepsFrom fuel i s (i + s * k)) = k.
Proof.
  intros Hs. revert i fuel. induction k as [|k IH]; intros i fuel Hk.
  - destruct fuel; cbn [stepsFrom]; [reflexivity|].
    replace (i <? i + s * 0)%nat with false by (symmetry; apply Nat.ltb_ge; lia).
    reflexivity.
  - destruct fuel as [|fuel]; [lia|]. cbn [stepsFrom].
    replace (i <? i + s * S k)%nat with true by (symmetry; apply Nat.ltb_lt; lia).
    cbn [length]. f_equal.
    replace (i + s * S k)%nat with (i + s + s * k)%nat by lia.
    apply IH. lia.
Qed.

Lemma stepsFrom_lt (fuel i s b j : nat) : In j (stepsFrom fuel i s b) -> (j < b)%nat.
Proof.
  revert i. induction fuel as [|fuel IH]; intros i H; [destruct H|].
  cbn [stepsFrom] in H.
  destruct (i <? b)%nat eqn:E; [|destruct H].
  destruct H as [<-|H]; [apply Nat.ltb_lt; exact E | exact (IH _ H)].
Qed.

Lemma div_le_one (a b : R) : 0 < b -> a <= b -> a / b <= 1.
Proof.
  intros Hb Hab. apply (Rmult_le_reg_r b); [exact Hb|].
  unfold Rdiv. rewrite Rmult_assoc, Rinv_l by lra. lra.
Qed.

Lemma div_nonneg (a b : R) : 0 <= a -> 0 < b -> 0 <= a / b.
Proof.
  intros Ha Hb. unfold Rdiv. apply Rmult_le_pos; [exact Ha|].
  left. apply Rinv_0_lt_compat. exact Hb.
Qed.

(** Counting loops *)
Lemma count_fold_le {A : Type} (P : A -> bool) (xs : list A) (c0 : nat) :
  (fold_left (fun c x => if P x then S c else c) xs c0 <= c0 + length xs)%nat.
Proof.
  revert c0. induction xs as [|x xs IH]; intros c0; cbn; [lia|].
  destruct (P x); [specialize (IH (S c0)) | specialize (IH c0)]; lia.
Qed.

Lemma count_fold2_le {A B : Type} (P : A -> B -> bool) (ys : list A) (xs : list B) (c0 : nat) :
  (fold_left (fun c y => fold_left (fun c x => if P y x then S c else c) xs c) ys c0
   <= c0 + length ys * length xs)%nat.
Proof.
  revert c0. induction ys as [|y ys IH]; intros c0; cbn; [lia|].
  specialize (IH (fold_left (fun c x => if P y x then S c else c) xs c0)).
  pose proof (count_fold_le (P y) xs c0). lia.
Qed.

Lemma half_even_minus_two (m : nat) : ((Z.of_nat (2 * m) - 2) / 2)%Z = (Z.of_nat m - 1)%Z.
Proof.
  replace (Z.of_nat (2 * m) - 2)%Z with ((Z.of_nat m - 1) * 2)%Z by lia.
  apply Z.div_mul. lia.
Qed.

Lemma forRange_odd_length (m : nat) :
  (1 <= m)%nat -> length (forRange 1 2 (2 * m - 1)) = (m - 1)%nat.
Proof.
  intros Hm. unfold forRange.
  replace (2 * m - 1)%nat with (1 + 2 * (m - 1))%nat at 2 by lia.
  apply stepsFrom_length; lia.
Qed.

Lemma edgeDensity_even_range (img : ImageData) :
  Nat.even (width img) = true -> Nat.even (height img) = true ->
  (4 <= width img)%nat -> (4 <= height img)%nat ->
  exists d, calculateEdgeDensity img = Some d /\ 0 <= d <= 1.
Proof.
  intros Hw Hh Hw4 Hh4.
  apply Nat.even_spec in Hw as [mw Ew]. apply Nat.even_spec in Hh as [mh Eh].
  unfold calculateEdgeDensity. rewrite Ew, Eh, !half_even_minus_two.
  set (cnt := fold_left _ _ 0%nat).
  assert (Hc : (cnt <= (mw - 1) * (mh - 1))%nat).
  { unfold cnt.
    pose proof (count_fold2_le (isEdge img) (forRange 1 2 (2 * mh - 1))
                  (forRange 1 2 (2 * mw - 1)) 0) as H.
    rewrite !forRange_odd_length in H by lia. lia. }
  replace ((Z.of_nat mw - 1) * (Z.of_nat mh - 1))%Z
    with (Z.of_nat ((mw - 1) * (mh - 1))) by lia.
  destruct (Z.of_nat ((mw - 1) * (mh - 1)) =? 0)%Z eqn:E; [apply Z.eqb_eq in E; nia|].
  eexists; split; [reflexivity|].
  rewrite <- INR_IZR_INZ.
  assert (Hp : 0 < INR ((mw - 1) * (mh - 1))) by (apply lt_0_INR; nia).
  apply le_INR in Hc. pose proof (pos_INR cnt).
  split.
  - apply div_nonneg; lra.
  - apply div_le_one; lra.
Qed.

(** X19: on an image of width or height 2 or 3 no pixel pair is checked
    and the edge density is [edgeCount / 0], not a finite number. *)
Theorem calculateEdgeDensity_degenerate (img : ImageData) :
  (2 <= width img <= 3)%nat \/ (2 <= height img <= 3)%nat ->
  calculateEdgeDensity img = None.
Proof.
  intros H. unfold calculateEdgeDensity.
  replace ((Z.of_nat (width img) - 2) / 2 * ((Z.of_nat (height img) - 2) / 2) =? 0)%Z
    with true; [reflexivity|].
  symmetry. apply Z.eqb_eq.
  destruct H as [H|H].
  - rewrite (Z.div_small (Z.of_nat (width img) - 2)) by lia. reflexivity.
  - rewrite (Z.div_small (Z.of_nat (height img) - 2)) by lia. apply Z.mul_0_r.
Qed.

(** Colour entropy *)
Lemma fold_left_ge {A : Type} (step : R -> A -> R) (l : list A) (e0 : R) :
  (forall e x, In x l -> e <= step e x) -> e0 <= fold_left step l e0.
Proof.
  revert e0. induction l as [|x l IH]; intros e0 H; cbn; [lra|].
  apply Rle_trans with (step e0 x); [apply H; left; reflexivity|].
  apply IH. intros e y Hy. apply H. right. exact Hy.
Qed.

Lemma sum_ge_elem (l : list R) (s0 c : R) :
  Forall (fun x => 0 <= x) l -> In c l -> s0 + c <= fold_left (fun s x => s + x) l s0.
Proof.
  revert s0. induction l as [|x l IH]; intros s0 Hl Hc; [destruct Hc|].
  inversion Hl as [|? ? Hx Hl']; subst. cbn.
  destruct Hc as [->|Hc].
  - apply fold_left_ge. intros e y Hy. rewrite Forall_forall in Hl'. pose proof (Hl' y Hy). lra.
  - specialize (IH (s0 + x) Hl' Hc). lra.
Qed.

Lemma ln_2_pos : 0 < ln 2.
Proof. rewrite <- ln_1. apply ln_increasing; lra. Qed.

Lemma neg_plog2p (p : R) : 0 < p <= 1 -> 0 <= - (p * log2 p).
Proof.
  intros [Hp Hp1]. unfold log2.
  assert (Hl : ln p <= 0).
  { rewrite <- ln_1. destruct (Req_dec p 1) as [->|Hne]; [lra|].
    left. apply ln_increasing; lra. }
  pose proof (Rinv_0_lt_compat _ ln_2_pos).
  assert (ln p / ln 2 <= 0).
  { unfold Rdiv. assert (0 <= - ln p * / ln 2) by (apply Rmult_le_pos; lra). lra. }
  assert (0 <= p * - (ln p / ln 2)) by (apply Rmult_le_pos; lra). lra.
Qed.

Lemma calculateColorEntropy_bounds (cm : ColorMap) :
  Forall (fun e => 0 < snd e) cm -> 0 <= calculateColorEntropy cm <= 1.
Proof.
  intros H. unfold calculateColorEntropy.
  set (T := fold_left (fun sum count => sum + count) (map snd cm) 0).
  assert (Hpos : Forall (fun x => 0 < x) (map snd cm)) by (apply Forall_map; exact H).
  assert (Hle : forall c, In c (map snd cm) -> 0 < c <= T).
  { intros c Hc. rewrite Forall_forall in Hpos. split; [apply Hpos, Hc|].
    pose proof (sum_ge_elem (map snd cm) 0 c) as Hs.
    assert (0 + c <= T); [|lra]. apply Hs; [|exact Hc].
    rewrite Forall_forall. intros x Hx. left. apply Hpos, Hx. }
  assert (HE : 0 <= fold_left (fun entropy count =>
                 entropy - count / T * log2 (count / T)) (map snd cm) 0).
  { apply fold_left_ge. intros e c Hc. destruct (Hle c Hc) as [H0 H1].
    assert (0 < c / T <= 1).
    { split; [apply Rdiv_lt_0_compat; lra | apply div_le_one; lra]. }
    pose proof (neg_plog2p (c / T)). lra. }
  unfold Rmin. destruct (Rle_dec 1 _); lra.
Qed.

Lemma nth_byte (l : list Z) (i : nat) : Forall isByte l -> isByte (nth i l 0%Z).
Proof.
  intros H. revert i. induction H as [|x l Hx Hl IH]; intros [|i]; cbn;
    [unfold isByte; lia | unfold isByte; lia | exact Hx | apply IH].
Qed.

Lemma cm_set_pos (m : ColorMap) (k : string) (v : R) :
  Forall (fun e => 0 < snd e) m -> 0 < v -> Forall (fun e => 0 < snd e) (cm_set m k v).
Proof.
  intros Hm Hv. induction Hm as [|[k' v'] m Hx Hm IH]; cbn; [constructor; [exact Hv|constructor]|].
  destruct (String.eqb k' k); constructor; cbn in *; auto.
Qed.

Lemma cm_get_pos (m : ColorMap) (k : string) (c : R) :
  Forall (fun e => 0 < snd e) m -> cm_get m k = Some c -> 0 < c.
Proof.
  intros Hm. induction Hm as [|[k' v'] m Hx Hm IH]; cbn; [discriminate|].
  destruct (String.eqb k' k); [intros [= <-]; exact Hx | exact IH].
Qed.

Lemma samplePixel_bounds (pixels : list Z) (acc : PixelAcc) (i : nat) :
  Forall isByte pixels -> Forall (fun e => 0 < snd e) (colorMap acc) ->
  let acc' := samplePixel pixels acc i in
  Forall (fun e => 0 < snd e) (colorMap acc') /\
  totalBrightness acc <= totalBrightness acc' <= totalBrightness acc + 255 /\
  totalContrast acc <= totalContrast acc' <= totalContrast acc + 128.
Proof.
  intros Hp Hm. unfold samplePixel; cbn [colorMap totalBrightness totalContrast].
  pose proof (nth_byte pixels i Hp) as Hr.
  pose proof (nth_byte pixels (i + 1) Hp) as Hg.
  pose proof (nth_byte pixels (i + 2) Hp) as Hb.
  unfold isByte in *.
  set (r := nth i pixels 0%Z) in *. set (g := nth (i + 1) pixels 0%Z) in *.
  set (b := nth (i + 2) pixels 0%Z) in *.
  assert (0 <= IZR r <= 255) by (split; apply IZR_le; lia).
  assert (0 <= IZR g <= 255) by (split; apply IZR_le; lia).
  assert (0 <= IZR b <= 255) by (split; apply IZR_le; lia).
  set (br := (IZR r + IZR g + IZR b) / 3).
  assert (0 <= br <= 255) by (unfold br; lra).
  assert (0 <= Rabs (br - 128) <= 128) by (unfold Rabs; destruct (Rcase_abs _); lra).
  split; [|lra].
  apply cm_set_pos; [exact Hm|].
  destruct (cm_get _ _) as [c|] eqn:E; [pose proof (cm_get_pos _ _ _ Hm E)|]; lra.
Qed.

Lemma samples_bounds (pixels : list Z) (idxs : list nat) (acc : PixelAcc) :
  Forall isByte pixels -> Forall (fun e => 0 < snd e) (colorMap acc) ->
  let acc' := fold_left (samplePixel pixels) idxs acc in
  Forall (fun e => 0 < snd e) (colorMap acc') /\
  totalBrightness acc <= totalBrightness acc'
    <= totalBrightness acc + 255 * INR (length idxs) /\
  totalContrast acc <= totalContrast acc' <= totalContrast acc + 128 * INR (length idxs).
Proof. 
  intros Hp. revert acc. induction idxs as [|i idxs IH]; intros acc Hm; cbn [fold_left length].
  - cbn zeta. change (INR 0) with 0. repeat split; try lra. exact Hm.
  - cbn zeta. destruct (samplePixel_bounds pixels acc i Hp Hm) as (Hm' & Hb & Hc).
    destruct (IH _ Hm') as (Hm'' & Hb' & Hc').
    rewrite S_INR. split; [exact Hm''|]. pose proof (pos_INR (length idxs)). lra.
Qed.

Lemma canvas_samples : length (forRange 0 16 (4 * size * size)) = 400%nat.
Proof.
  exact (stepsFrom_length 16 400 0 (4 * size * size) ltac:(lia) ltac:(unfold size; lia)).
Qed.

(** X21: for the 6400 bytes of the 40 x 40 canvas, the extracted
    brightness, contrast, colour entropy and edge density are all present
    and lie in [[0,1]]. *)
Theorem extractImageMetadata_unit_fields (pixels : list Z) :
  length pixels = (4 * size * size)%nat -> Forall isByte pixels ->
  let md := extractImageMetadata (Some pixels) in
  inUnit (brightness md) /\ inUnit (contrast md) /\ inUnit (colorEntropy md)
  /\ inUnit (edgeDensity md).
Proof.
  intros Hlen Hp. unfold extractImageMetadata, metadataOfPixels. cbn zeta. rewrite Hlen.
  destruct (samples_bounds pixels (forRange 0 16 (4 * size * size)) (mkPixelAcc [] 0 0) Hp
              (Forall_nil _)) as (Hm & Hb & Hc).
  cbn [totalBrightness totalContrast colorMap] in Hb, Hc.
  rewrite canvas_samples in Hb, Hc.
  replace (INR (4 * size * size)) with 6400 by (rewrite INR_IZR_INZ; reflexivity).
  replace (INR 400) with 400 in Hb, Hc by (rewrite INR_IZR_INZ; reflexivity).
  set (acc := fold_left _ _ _) in *.
  cbn [brightness contrast colorEntropy edgeDensity].
  replace (6400 / 16) with 400 by field.
  split; [|split; [|split]].
  - eexists; split; [reflexivity|]. split; lra.
  - eexists; split; [reflexivity|]. split; lra.
  - eexists; split; [reflexivity|]. apply calculateColorEntropy_bounds, Hm.
  - apply edgeDensity_even_range; cbn; [reflexivity | reflexivity | unfold size; lia | unfold size; lia].
Qed.

Lemma quantize_level (v : Z) : isByte v -> In (quantize v) quantLevels.
Proof.
  unfold isByte, quantize. intros Hv.
  assert (H0 : (0 <= (v + 20) / 40)%Z) by (apply Z.div_pos; lia).
  assert (H6 : ((v + 20) / 40 < 7)%Z) by (apply Z.div_lt_upper_bound; lia).
  assert (((v + 20) / 40 = 0 \/ (v + 20) / 40 = 1 \/ (v + 20) / 40 = 2 \/ (v + 20) / 40 = 3
          \/ (v + 20) / 40 = 4 \/ (v + 20) / 40 = 5 \/ (v + 20) / 40 = 6)%Z) as Hq by lia.
  destruct Hq as [->|[->|[->|[->|[->|[->| ->]]]]]]; cbn; tauto.
Qed.

Lemma cm_set_keys (m : ColorMap) (k : string) (v : R) :
  map fst (cm_set m k v) = map fst m
  \/ (map fst (cm_set m k v) = map fst m ++ [k] /\ ~ In k (map fst m)).
Proof.
  induction m as [|[k' v'] m IH]; cbn.
  - right. split; [reflexivity | tauto].
  - destruct (String.eqb k' k) eqn:E; [left; reflexivity|].
    apply String.eqb_neq in E. cbn.
    destruct IH as [-> | [-> Hn]]; [left; reflexivity|].
    right. split; [reflexivity|]. intros [H|H]; [exact (E H) | exact (Hn H)].
Qed.

Lemma cm_set_nodup (m : ColorMap) (k : string) (v : R) :
  NoDup (map fst m) -> NoDup (map fst (cm_set m k v)).
Proof.
  intros H. destruct (cm_set_keys m k v) as [-> | [-> Hn]]; [exact H|].
  apply Permutation_NoDup with (k :: map fst m).
  - apply Permutation_cons_append.
  - constructor; assumption.
Qed.

Lemma cm_set_forall_keys (Q : string -> Prop) (m : ColorMap) (k : string) (v : R) :
  Forall (fun e => Q (fst e)) m -> Q k -> Forall (fun e => Q (fst e)) (cm_set m k v).
Proof.
  intros Hm Hk. induction Hm as [|[k' v'] m Hx Hm IH]; cbn.
  - constructor; [exact Hk | constructor].
  - destruct (String.eqb k' k); constructor; auto.
Qed.

Lemma samples_keys (pixels : list Z) (idxs : list nat) (acc : PixelAcc) :
  Forall isByte pixels ->
  Forall (fun e => levelKey (fst e)) (colorMap acc) -> NoDup (map fst (colorMap acc)) ->
  let acc' := fold_left (samplePixel pixels) idxs acc in
  Forall (fun e => levelKey (fst e)) (colorMap acc') /\ NoDup (map fst (colorMap acc')).
Proof.
  intros Hp. revert acc. induction idxs as [|i idxs IH]; intros acc Hk Hd; cbn [fold_left];
    [split; assumption|].
  apply IH; unfold samplePixel; cbn [colorMap].
  - apply cm_set_forall_keys; [exact Hk|].
    exists (quantize (nth i pixels 0%Z)), (quantize (nth (i + 1) pixels 0%Z)),
      (quantize (nth (i + 2) pixels 0%Z)).
    split; [|split; [|split]]; try reflexivity; apply quantize_level, nth_byte, Hp.
  - apply cm_set_nodup, Hd.
Qed.

Lemma NoDup_firstn {A : Type} (n : nat) (l : list A) : NoDup l -> NoDup (firstn n l).
Proof.
  revert n. induction l as [|x l IH]; intros [|n] H; cbn; [constructor..|].
  inversion H as [|? ? Hx Hl]; subst. constructor; [|apply IH, Hl].
  intros Hin. apply Hx. rewrite <- (firstn_skipn n l). apply in_or_app. left. exact Hin.
Qed.

Lemma string_length_app (a b : string) :
  String.length (a ++ b) = (String.length a + String.length b)%nat.
Proof. induction a as [|c a IH]; cbn; [reflexivity | rewrite IH; reflexivity]. Qed.

Lemma string_app_cancel_r (a b s : string) : (a ++ s = b ++ s)%string -> a = b.
Proof.
  revert b. induction a as [|c a IH]; intros [|c' b] H; cbn in H.
  - reflexivity.
  - apply (f_equal String.length) in H. cbn in H. rewrite string_length_app in H. lia.
  - apply (f_equal String.length) in H. cbn in H. rewrite string_length_app in H. lia.
  - injection H as -> H. f_equal. apply IH, H.
Qed.

Lemma rgb_wrap_inj (a b : string) :
  ("rgb(" ++ a ++ ")")%string = ("rgb(" ++ b ++ ")")%string -> a = b.
Proof. cbn. intros H. injection H as H. apply (string_app_cancel_r a b ")"), H. Qed.

(** X22: the dominant colours are at most five distinct strings
    [rgb(R,G,B)], each component a multiple of 40 between 0 and 240 in
    decimal. *)
Theorem extractImageMetadata_dominantColors (pixels : list Z) :
  Forall isByte pixels ->
  exists cs, dominantColors (extractImageMetadata (Some pixels)) = Some cs /\ (length cs <= 5)%nat
    /\ NoDup cs /\ Forall (fun s => exists key, levelKey key /\ s = ("rgb(" ++ key ++ ")")%string) cs.
Proof.
  intros Hp. unfold extractImageMetadata, metadataOfPixels. cbn zeta. cbn [dominantColors].
  set (acc := fold_left _ _ _).
  destruct (samples_keys pixels (forRange 0 16 (length pixels)) (mkPixelAcc [] 0 0) Hp
              (Forall_nil _) (NoDup_nil _)) as [Hk Hd].
  fold acc in Hk, Hd.
  set (top := firstn 5 (sortDesc snd (colorMap acc))).
  assert (Hincl : forall e, In e top -> In e (colorMap acc)).
  { intros e He. apply (Permutation_in _ (sortDesc_perm snd (colorMap acc))).
    rewrite <- (firstn_skipn 5 (sortDesc snd (colorMap acc))). apply in_or_app. left. exact He. }
  eexists; split; [reflexivity|]. split; [|split].
  - rewrite length_map. unfold top. rewrite length_firstn. lia.
  - rewrite <- map_map with (f := fst) (g := fun k => ("rgb(" ++ k ++ ")")%string).
    apply NoDup_map_NoDup_ForallPairs; [intros a b _ _; apply rgb_wrap_inj|].
    unfold top. rewrite <- firstn_map. apply NoDup_firstn.
    apply (Permutation_NoDup (Permutation_map fst (Permutation_sym (sortDesc_perm snd _)))).
    exact Hd.
  - rewrite Forall_forall. intros s Hs. apply in_map_iff in Hs as [e [<- He]].
    exists (fst e). split; [|reflexivity].
    rewrite Forall_forall in Hk. apply Hk, Hincl, He.
Qed.

Lemma propertySimilarity_unit (oa ob : option R) :
  optInUnit oa -> optInUnit ob -> 0 <= propertySimilarity oa ob <= 1.
Proof.
  destruct oa as [a|], ob as [b|]; cbn; intros Ha Hb; try lra.
  unfold truthyR. destruct (Req_EM_T a 0), (Req_EM_T b 0); cbn; try lra.
  unfold Rabs. destruct (Rcase_abs _); lra.
Qed.

(** X23: when every numeric property present in either metadata lies in
    [[0,1]], the visual-properties similarity lies in [[0,1]]. *)
Theorem visualPropertiesSimilarity_unit (pA pB : option VisualMetadata) :
  fieldsInUnit pA -> fieldsInUnit pB -> 0 <= visualPropertiesSimilarity pA pB <= 1.
Proof.
  destruct pA as [a|], pB as [b|]; cbn; intros HA HB; try lra.
  destruct HA as (H1 & H2 & H3 & H4), HB as (G1 & G2 & G3 & G4).
  pose proof (propertySimilarity_unit _ _ H1 G1).
  pose proof (propertySimilarity_unit _ _ H2 G2).
  pose proof (propertySimilarity_unit _ _ H3 G3).
  pose proof (propertySimilarity_unit _ _ H4 G4).
  lra.
Qed.

(** Text extraction cache *)
Import OCR.

Lemma cacheSet_keys (c : Cache) (k : string) (v : CacheEntry) :
  map fst (cacheSet c k v) = map fst c
  \/ (map fst (cacheSet c k v) = map fst c ++ [k] /\ ~ In k (map fst c)).
Proof.
  induction c as [|[k' v'] c IH]; cbn.
  - right. split; [reflexivity | tauto].
  - destruct (String.eqb k' k) eqn:E; [left; reflexivity|].
    apply String.eqb_neq in E. cbn.
    destruct IH as [-> | [-> Hn]]; [left; reflexivity|].
    right. split; [reflexivity|]. intros [H|H]; [exact (E H) | exact (Hn H)].
Qed.

Lemma cacheSet_get (c : Cache) (k : string) (v : CacheEntry) : cacheGet (cacheSet c k v) k = Some v.
Proof.
  induction c as [|[k' v'] c IH]; cbn; [rewrite String.eqb_refl; reflexivity|].
  destruct (String.eqb k' k) eqn:E; cbn; rewrite E; [|exact IH].
  reflexivity.
Qed.

Lemma cacheGet_In (c : Cache) (k : string) (v : CacheEntry) : cacheGet c k = Some v -> In (k, v) c.
Proof.
  induction c as [|[k' v'] c IH]; cbn; [discriminate|].
  destruct (String.eqb k' k) eqn:E; [apply String.eqb_eq in E; subst; intros [= ->]; left; reflexivity|].
  intros H. right. apply IH, H.
Qed.

Lemma cacheSet_forall (P : string * CacheEntry -> Prop) (c : Cache) (k : string) (v : CacheEntry) :
  (forall k', P (k', v)) -> Forall P c -> Forall P (cacheSet c k v).
Proof.
  intros Hv Hc. induction Hc as [|[k' v'] c Hx Hc IH]; cbn.
  - constructor; [apply Hv | constructor].
  - destruct (String.eqb k' k); constructor; auto.
Qed.

Lemma length_map_fst {A B : Type} (l : list (A * B)) : length (map fst l) = length l.
Proof. apply length_map. Qed.

Lemma cacheSet_bound (c : Cache) (k : string) (v : CacheEntry) :
  (length (cacheSet c k v) <= S (length c))%nat /\
  (NoDup (map fst c) -> NoDup (map fst (cacheSet c k v))).
Proof.
  destruct (cacheSet_keys c k v) as [E | [E Hn]]; rewrite <- !(length_map_fst (cacheSet c k v)),
    <- (length_map_fst c), E; [split; [lia | tauto]|].
  rewrite length_app. cbn. split; [lia|].
  intros H. apply Permutation_NoDup with (k :: map fst c).
  - apply Permutation_cons_append.
  - constructor; assumption.
Qed.

(** X24: the text-extraction cache never grows beyond 100 entries and
    keeps its keys distinct. *)
Theorem extractTextFromImage_cache_bounded (ocrReady : bool) (preprocess : string -> string)
  (recognize : string -> option OCRData) (options : ExtractOptions) (cache : Cache)
  (startTime endTime : R) (imageDataUrl : string) :
  (length cache <= MAX_CACHE_SIZE)%nat -> NoDup (map fst cache) ->
  let cache' := snd (extractTextFromImage ocrReady preprocess recognize options cache
                       startTime endTime imageDataUrl) in
  (length cache' <= MAX_CACHE_SIZE)%nat /\ NoDup (map fst cache').
Proof.
  intros Hlen Hd. unfold extractTextFromImage. cbn zeta.
  destruct (cachedResult _ _ _ _); [split; assumption|].
  destruct ocrReady; cbn [negb]; [|split; assumption].
  destruct (recognize _) as [d|]; cbn [snd]; [|split; assumption].
  set (c := if (MAX_CACHE_SIZE <=? length cache)%nat then cacheDeleteOldest cache else cache).
  assert (Hc : (length c < MAX_CACHE_SIZE)%nat /\ NoDup (map fst c)).
  { unfold c. destruct (MAX_CACHE_SIZE <=? length cache)%nat eqn:E.
    - unfold cacheDeleteOldest. destruct cache as [|e cache]; cbn in *; [split; [lia | constructor]|].
      inversion Hd; subst. split; [lia | assumption].
    - apply Nat.leb_gt in E. split; assumption. }
  destruct Hc as [Hcl Hcd].
  destruct (cacheSet_bound c (cacheKey imageDataUrl) (mkCacheEntry (processResult d) endTime))
    as [Hl Hn].
  split; [lia | apply Hn, Hcd].
Qed.

Lemma cacheKey_prefix (url1 url2 : string) :
  substring 0 100 url1 = substring 0 100 url2 -> String.length url1 = String.length url2 ->
  cacheKey url1 = cacheKey url2.
Proof. intros H1 H2. unfold cacheKey. rewrite H1, H2. reflexivity. Qed.

(** X25: two image URLs of equal length that agree on their first 100
    characters share a cache entry: within 30 minutes the second URL gets
    the text recognised for the first, without recognition running on it. *)
Theorem extractTextFromImage_key_collision (ocrReady : bool) (preprocess : string -> string)
  (recognize : string -> option OCRData) (options1 options2 : ExtractOptions) (cache : Cache)
  (t0 t1 t2 t3 : R) (url1 url2 : string) (d : OCRData) :
  ocrReady = true -> cacheGet cache (cacheKey url1) = None ->
  recognize (processedUrl preprocess options1 url1) = Some d ->
  substring 0 100 url1 = substring 0 100 url2 -> String.length url1 = String.length url2 ->
  truthyB (forceRefresh options2) = false -> t2 - t1 < CACHE_EXPIRY_MS ->
  let cache1 := snd (extractTextFromImage ocrReady preprocess recognize options1 cache t0 t1 url1) in
  extractTextFromImage ocrReady preprocess recognize options2 cache1 t2 t3 url2
  = (mkTextResult (normalizeText (ocrText d)) (ocrConfidence d / 100)
       (processWords (ocrWords d)) None, cache1).
Proof.
  intros Hr Hnone Hd Hp Hl Hf Ht. cbn zeta.
  assert (Hmiss : cachedResult options1 cache t0 (cacheKey url1) = None).
  { unfold cachedResult. rewrite Hnone. destruct (truthyB (forceRefresh options1)); reflexivity. }
  set (c := if (MAX_CACHE_SIZE <=? length cache)%nat then cacheDeleteOldest cache else cache).
  assert (E1 : extractTextFromImage ocrReady preprocess recognize options1 cache t0 t1 url1
               = (processResult d,
                  cacheSet c (cacheKey url1) (mkCacheEntry (processResult d) t1))).
  { unfold extractTextFromImage. rewrite Hmiss, Hr, Hd. reflexivity. }
  rewrite E1. cbn [snd].
  unfold extractTextFromImage. rewrite <- (cacheKey_prefix url1 url2 Hp Hl).
  unfold cachedResult. rewrite Hf, cacheSet_get. cbn [entryTimestamp entryResult].
  rewrite (Rltb_true _ _ Ht). reflexivity.
Qed.

Lemma processWords_ok (ws : list OCRWord) : wordsOk (processWords ws).
Proof.
  unfold processWords. split; [|apply sortDesc_sorted].
  rewrite Forall_forall. intros w Hw.
  apply (Permutation_in _ (sortDesc_perm _ _)) in Hw.
  apply filter_In in Hw as [_ Hw]. apply andb_true_iff in Hw as [H1 H2].
  apply Rltb_iff in H1. apply Nat.ltb_lt in H2. split; assumption.
Qed.

(** X26: every word returned has confidence above [0.5] and at least two
    characters, and the words come in descending order of confidence;
    cached results keep this. *)
Theorem extractTextFromImage_words_ok (ocrReady : bool) (preprocess : string -> string)
  (recognize : string -> option OCRData) (options : ExtractOptions) (cache : Cache)
  (startTime endTime : R) (imageDataUrl : string) :
  cacheWordsOk cache ->
  let r := extractTextFromImage ocrReady preprocess recognize options cache
             startTime endTime imageDataUrl in
  wordsOk (resWords (fst r)) /\ cacheWordsOk (snd r).
Proof.
  intros Hc. cbn zeta. unfold extractTextFromImage.
  assert (Hempty : wordsOk (resWords emptyResult)) by (split; constructor).
  destruct (cachedResult options cache startTime (cacheKey imageDataUrl)) as [res|] eqn:Ecr.
  - split; [|exact Hc]. cbn [fst].
    unfold cachedResult in Ecr. destruct (truthyB _); [discriminate|].
    destruct (cacheGet cache _) as [e|] eqn:Eg; [|discriminate].
    destruct (Rltb _ _); [|discriminate]. injection Ecr as <-. cbn [resWords].
    apply cacheGet_In in Eg. unfold cacheWordsOk in Hc. rewrite Forall_forall in Hc.
    exact (Hc _ Eg).
  - destruct ocrReady; cbn [negb]; [|split; assumption].
    destruct (recognize _) as [d|]; [|split; assumption]. cbn [fst snd].
    split; [apply processWords_ok|].
    apply cacheSet_forall; [intros k; apply processWords_ok|].
    destruct (MAX_CACHE_SIZE <=? length cache)%nat; [|exact Hc].
    unfold cacheDeleteOldest. destruct cache as [|e cache]; [constructor|].
    inversion Hc; assumption.
Qed.

Lemma lowerAscii_not_upper (c : ascii) : isUpperAscii (lowerAscii c) = false.
Proof.
  unfold lowerAscii, isUpperAscii.
  destruct ((65 <=? nat_of_ascii c)%nat && (nat_of_ascii c <=? 90)%nat)%bool eqn:E; [|exact E].
  apply andb_true_iff in E as [E1 E2]. apply Nat.leb_le in E1, E2.
  rewrite nat_ascii_embedding by lia.
  apply andb_false_iff. right. apply Nat.leb_gt. lia.
Qed.

Lemma dropWs_forall (P : ascii -> Prop) (s : list ascii) : Forall P s -> Forall P (Text.dropWs s).
Proof.
  induction 1 as [|c s Hc Hs IH]; cbn [Text.dropWs]; [constructor|].
  destruct (Text.is_ws c); [exact IH | constructor; assumption].
Qed.

Lemma trim_forall (P : ascii -> Prop) (s : list ascii) : Forall P s -> Forall P (Text.trim s).
Proof.
  intros H. unfold Text.trim. apply Forall_rev, dropWs_forall, Forall_rev, dropWs_forall, H.
Qed.

Lemma collapseWs_forall (P : ascii -> Prop) (s : list ascii) (b : bool) :
  P " "%char -> Forall P s -> Forall P (Text.collapseWs s b).
Proof.
  intros Hsp H. revert b. induction H as [|c s Hc Hs IH]; intros b; cbn [Text.collapseWs];
    [constructor|].
  destruct (Text.is_ws c); [destruct b; [apply IH | constructor; [exact Hsp | apply IH]]|].
  constructor; [exact Hc | apply IH].
Qed.

Lemma replacePair_forall (P : ascii -> Prop) (c1 c2 : ascii) (s : list ascii) :
  P c2 -> Forall P s -> Forall P (replacePair c1 c2 s).
Proof.
  intros Hc2. remember (length s) as n eqn:En. revert s En.
  induction n as [n IH] using lt_wf_ind. intros s En Hs.
  destruct s as [|a t]; cbn; [constructor|].
  destruct t as [|b t']; [exact Hs|].
  inversion Hs as [|? ? Ha Ht]; subst. inversion Ht as [|? ? Hb Ht']; subst.
  destruct (Ascii.eqb a c1 && Ascii.eqb b c2)%bool.
  - constructor; [exact Hc2|]. apply (IH (length t')); cbn; [lia | reflexivity | exact Ht'].
  - constructor; [exact Ha|]. apply (IH (length (b :: t'))); cbn; [lia | reflexivity | exact Ht].
Qed.

(** X27: normalised text contains only characters of the kept class and no
    upper-case ASCII letter. *)
Lemma normalizeText_chars (text : string) :
  Forall normalizedChar (list_ascii_of_string (normalizeText text)).
Proof.
  unfold normalizeText. destruct (negb (truthyS text)); [constructor|].
  rewrite list_ascii_of_string_of_list_ascii.
  repeat (apply replacePair_forall; [split; reflexivity|]).
  match goal with |- Forall _ (filter _ ?s) =>
    assert (Hl : Forall (fun c => isUpperAscii c = false) s) end.
  { apply collapseWs_forall; [reflexivity|].
    apply trim_forall.
    apply Forall_forall. intros c Hc. apply in_map_iff in Hc as [c' [<- _]].
    apply lowerAscii_not_upper. }
  rewrite Forall_forall in Hl |- *. intros c Hc. apply filter_In in Hc as [Hc Hk].
  split; [exact Hk | apply Hl, Hc].
Qed.

(** ** Text similarity components *)

(** X12: the importance of a word lies in [[0, 1.2]]. *)
Theorem calculateWordImportance_range (word : string) :
  0 <= calculateWordImportance word <= 1.2.
Proof. apply wordImportance_bounds. Qed.

(** X14: with confidences in [[0,1]] in both word maps, the weighted
    Jaccard similarity lies in [[0,1]]. *)
Theorem weightedJaccard_range (mapA mapB : WordMap) :
  Forall confInUnit mapA -> Forall confInUnit mapB ->
  0 <= weightedJaccard mapA mapB <= 1.
Proof. apply weightedJaccard_bounds. Qed.

Lemma weightedJaccard_range_witness :
  Forall confInUnit (buildWordMap Sample.helloWorldWords) /\
  0 <= weightedJaccard (buildWordMap Sample.helloWorldWords)
         (buildWordMap Sample.helloWorldWords) <= 1.
Proof.
  assert (H : Forall confInUnit (buildWordMap Sample.helloWorldWords))
    by (cbn; repeat constructor; unfold confInUnit; cbn; lra).
  split; [exact H | apply weightedJaccard_range; exact H].
Defined.

(** X15: the phrase-match score lies in [[0,1]]. *)
Theorem calculatePhraseMatches_range (textA textB : string) :
  0 <= calculatePhraseMatches textA textB <= 1.
Proof. apply phraseMatches_bounds. Qed.

(** X16: with non-negative confidences in both word maps, the fuzzy-match
    score lies in [[0,1]]. *)
Theorem calculateFuzzyMatches_range (mapA mapB : WordMap) :
  Forall (fun e => 0 <= fst (snd e)) mapA -> Forall (fun e => 0 <= fst (snd e)) mapB ->
  0 <= calculateFuzzyMatches mapA mapB <= 1.
Proof. apply fuzzyMatches_bounds. Qed.

Lemma calculateFuzzyMatches_range_witness :
  Forall (fun e => 0 <= fst (snd e)) (buildWordMap Sample.helloWorldWords) /\
  0 <= calculateFuzzyMatches (buildWordMap Sample.helloWorldWords)
         (buildWordMap Sample.helloWorldWords) <= 1.
Proof.
  assert (H : Forall (fun e => 0 <= fst (snd e)) (buildWordMap Sample.helloWorldWords))
    by (cbn; repeat constructor; cbn; lra).
  split; [exact H | apply calculateFuzzyMatches_range; exact H].
Defined.

(** ** Pixel analysis *)

(** X18: on an image whose width and height are even and at least 4 the
    edge density is a number in [[0,1]]. *)
Theorem calculateEdgeDensity_range (img : ImageData) :
  Nat.even (width img) = true -> Nat.even (height img) = true ->
  (4 <= width img)%nat -> (4 <= height img)%nat ->
  exists d, calculateEdgeDensity img = Some d /\ 0 <= d <= 1.
Proof. apply edgeDensity_even_range. Qed.

Lemma calculateEdgeDensity_range_witness :
  Nat.even (width Sample.black4) = true /\ Nat.even (height Sample.black4) = true /\
  (4 <= width Sample.black4)%nat /\ (4 <= height Sample.black4)%nat /\
  exists d, calculateEdgeDensity Sample.black4 = Some d /\ 0 <= d <= 1.
Proof.
  split; [reflexivity|]. split; [reflexivity|]. split; [cbn; lia|]. split; [cbn; lia|].
  apply calculateEdgeDensity_range; cbn; [reflexivity | reflexivity | lia | lia].
Defined.


Lemma calculateEdgeDensity_degenerate_witness :
  ((2 <= width Sample.black3 <= 3)%nat \/ (2 <= height Sample.black3 <= 3)%nat) /\
  calculateEdgeDensity Sample.black3 = None.
Proof.
  assert (H : (2 <= width Sample.black3 <= 3)%nat \/ (2 <= height Sample.black3 <= 3)%nat)
    by (left; cbn; lia).
  split; [exact H | apply calculateEdgeDensity_degenerate; exact H].
Defined.

(** X20: when every count in the colour map is positive, the normalised
    colour entropy lies in [[0,1]]. *)
Theorem calculateColorEntropy_range (colorMap : ColorMap) :
  Forall (fun e => 0 < snd e) colorMap -> 0 <= calculateColorEntropy colorMap <= 1.
Proof. apply calculateColorEntropy_bounds. Qed.

Lemma calculateColorEntropy_range_witness :
  Forall (fun e => 0 < snd e) Sample.twoColours /\
  0 <= calculateColorEntropy Sample.twoColours <= 1.
Proof.
  assert (H : Forall (fun e => 0 < snd e) Sample.twoColours)
    by (repeat constructor; cbn; lra).
  split; [exact H | apply calculateColorEntropy_range; exact H].
Defined.

Lemma greyCanvas_bytes : Forall isByte Sample.greyCanvas.
Proof.
  apply Forall_forall. intros v Hv. apply repeat_spec in Hv. subst v. unfold isByte. lia.
Qed.


Lemma extractImageMetadata_unit_fields_witness :
  length Sample.greyCanvas = (4 * size * size)%nat /\ Forall isByte Sample.greyCanvas /\
  let md := extractImageMetadata (Some Sample.greyCanvas) in
  inUnit (brightness md) /\ inUnit (contrast md) /\ inUnit (colorEntropy md)
  /\ inUnit (edgeDensity md).
Proof.
  assert (Hl : length Sample.greyCanvas = (4 * size * size)%nat) by apply repeat_length.
  split; [exact Hl|]. split; [exact greyCanvas_bytes|].
  apply extractImageMetadata_unit_fields; [exact Hl | exact greyCanvas_bytes].
Defined.


Lemma extractImageMetadata_dominantColors_witness :
  Forall isByte Sample.greyCanvas /\
  exists cs, dominantColors (extractImageMetadata (Some Sample.greyCanvas)) = Some cs
    /\ (length cs <= 5)%nat /\ NoDup cs
    /\ Forall (fun s => exists key, levelKey key /\ s = ("rgb(" ++ key ++ ")")%string) cs.
Proof.
  split; [exact greyCanvas_bytes|].
  apply extractImageMetadata_dominantColors, greyCanvas_bytes.
Defined.


Lemma visualPropertiesSimilarity_unit_witness :
  fieldsInUnit (Some Sample.colouredMetadata) /\
  0 <= visualPropertiesSimilarity (Some Sample.colouredMetadata) (Some Sample.colouredMetadata) <= 1.
Proof.
  assert (H : fieldsInUnit (Some Sample.colouredMetadata)) by (cbn; lra).
  split; [exact H | apply visualPropertiesSimilarity_unit; exact H].
Defined.

(** ** Text extraction cache *)

Lemma fullCache_keys : NoDup (map fst Sample.fullCache).
Proof.
  unfold Sample.fullCache; rewrite map_map; cbn [fst].
  apply NoDup_map_NoDup_ForallPairs; [|apply seq_NoDup].
  intros i j _ _ E.
  rewrite <- (repeat_length "k"%char i), <- (repeat_length "k"%char j).
  rewrite <- (list_ascii_of_string_of_list_ascii (repeat "k"%char i)), E,
    list_ascii_of_string_of_list_ascii.
  reflexivity.
Qed.

(** A call on the full cache: the oldest entry is evicted before the new
    one is added. *)
Lemma extractTextFromImage_cache_bounded_witness :
  length Sample.fullCache = MAX_CACHE_SIZE /\
  (length Sample.fullCache <= MAX_CACHE_SIZE)%nat /\ NoDup (map fst Sample.fullCache) /\
  let cache' := snd (extractTextFromImage true (fun u => u) (fun _ => Some Sample.ocrHello)
                       Sample.noOptions Sample.fullCache 0 0 Sample.urlA) in
  (length cache' <= MAX_CACHE_SIZE)%nat /\ NoDup (map fst cache').
Proof.
  assert (Hl : length Sample.fullCache = MAX_CACHE_SIZE)
    by (unfold Sample.fullCache; rewrite length_map, length_seq; reflexivity).
  split; [exact Hl|]. split; [lia|]. split; [exact fullCache_keys|].
  apply extractTextFromImage_cache_bounded; [lia | exact fullCache_keys].
Defined.

Lemma extractTextFromImage_key_collision_witness :
  substring 0 100 Sample.urlA = substring 0 100 Sample.urlB /\
  String.length Sample.urlA = String.length Sample.urlB /\
  let cache1 := snd (extractTextFromImage true (fun u => u) (fun _ => Some Sample.ocrHello)
                       Sample.noOptions [] 0 0 Sample.urlA) in
  extractTextFromImage true (fun u => u) (fun _ => Some Sample.ocrHello)
    Sample.noOptions cache1 1000 1000 Sample.urlB
  = (mkTextResult (normalizeText (ocrText Sample.ocrHello)) (ocrConfidence Sample.ocrHello / 100)
       (processWords (ocrWords Sample.ocrHello)) None, cache1).
Proof.
  split; [reflexivity|]. split; [reflexivity|].
  apply extractTextFromImage_key_collision; try reflexivity.
  unfold CACHE_EXPIRY_MS. lra.
Defined.

Lemma extractTextFromImage_words_ok_witness :
  cacheWordsOk [] /\
  let r := extractTextFromImage true (fun u => u) (fun _ => Some Sample.ocrHello)
             Sample.noOptions [] 0 0 Sample.urlA in
  wordsOk (resWords (fst r)) /\ cacheWordsOk (snd r).
Proof.
  split; [constructor|]. apply extractTextFromImage_words_ok. constructor.
Defined.
